(** * kniha-jazd: fuel-consumption reconciliation scripts

    A shallow embedding of [scripts/compare_import.py],
    [scripts/import_excel.py] and [scripts/create_showcase_db.py].

    Numbers: the scripts compute with Python floats.  They are idealised
    here as exact rationals ([Q], compared with [==]); rounding is not
    modelled.  [None] is [option]'s [None]; SQLite [NULL] likewise.
    Dictionaries keyed by trip id are [gmap string _].  Python exceptions
    are an explicit [option] result: [None] stands for a raised error. *)

From Stdlib Require Import QArith Qabs Qminmax ZArith Lia Lqa Ascii String OrdersEx.
From stdpp Require Import base option list strings pretty gmap sorting.

Open Scope Q_scope.

(** ** Python numerics on the idealised floats *)

Module Py.

(** [a < b] on floats, as a boolean. *)
Definition ltb (a b : Q) : bool := negb (Qle_bool b a).

(** Truthiness of a float: [0.0] is falsy. *)
Definition truthy (a : Q) : bool := negb (Qeq_bool a 0).

(** Truthiness of an integer column such as [full_tank]. *)
Definition truthy_int (z : Z) : bool := negb (Z.eqb z 0).

(** The guard [x and x > 0] on an optional float [x]: [Some f] when it
    passes ([None] and [0.0] are falsy), with [f] the float. *)
Definition positive (x : option Q) : option Q :=
  match x with
  | None => None
  | Some f => if truthy f && ltb 0 f then Some f else None
  end.

(** [a / b]; [None] is [ZeroDivisionError]. *)
Definition div (a b : Q) : option Q :=
  if Qeq_bool b 0 then None else Some (a / b).

(** [min(a, b)]: the first argument unless the second is smaller. *)
Definition min (a b : Q) : Q := if ltb b a then b else a.

(** [max(a, b)]: the first argument unless the second is larger. *)
Definition max (a b : Q) : Q := if ltb a b then b else a.

(** [abs(a)]. *)
Definition abs (a : Q) : Q := Qabs a.

End Py.

(** ** The [trips] table and the [vehicles] table *)

(** One row of [trips] (schema in [create_showcase_db.py]).  [REAL]
    columns are floats, nullable ones are [option]. *)
Record trip := Trip {
  id : string;
  vehicle_id : string;
  date : string;
  origin : string;
  destination : string;
  distance_km : Q;
  odometer : Q;
  purpose : string;
  fuel_liters : option Q;
  fuel_cost_eur : option Q;
  other_costs_eur : option Q;
  other_costs_note : option string;
  sort_order : Z;
  full_tank : Z;
  created_at : string;
  updated_at : string
}.

(** The columns of [vehicles] the scripts read. *)
Record vehicle := Vehicle {
  v_id : string;
  tp_consumption : Q;
  tank_size_liters : Q
}.

(** ** compare_import.py: [get_calculated_values] *)

Module CompareImport.

(** The variables of the first loop (lines 121-124). *)
Record rate_state := RateState {
  rates : gmap string Q;
  current_trip_ids : list string;
  km_in_period : Q;
  fuel_in_period : Q
}.

Definition rate_init : rate_state :=
  {| rates := ∅; current_trip_ids := []; km_in_period := 0; fuel_in_period := 0 |}.

(** [for tid in ids: rates[tid] = rate]. *)
Definition assign_all (rate : Q) (ids : list string) (r : gmap string Q)
  : gmap string Q :=
  foldl (fun acc tid => <[tid := rate]> acc) r ids.

(** The body of the first loop (lines 127-139). *)
Definition rate_step (st : rate_state) (t : trip) : option rate_state :=
  let ids := current_trip_ids st ++ [id t] in
  let km := km_in_period st + distance_km t in
  match Py.positive (fuel_liters t) with
  | Some f =>
    let fuel := fuel_in_period st + f in
    if Py.truthy_int (full_tank t) && Py.ltb 0 km then
      q ← Py.div fuel km;
      let rate := q * 100 in
      Some {| rates := assign_all rate ids (rates st);
              current_trip_ids := [];
              km_in_period := 0;
              fuel_in_period := 0 |}
    else
      Some {| rates := rates st; current_trip_ids := ids;
              km_in_period := km; fuel_in_period := fuel |}
  | None =>
    Some {| rates := rates st; current_trip_ids := ids;
            km_in_period := km; fuel_in_period := fuel_in_period st |}
  end.

(** The first loop (line 126), from an arbitrary state. *)
Fixpoint rate_loop (st : rate_state) (trips : list trip) : option rate_state :=
  match trips with
  | [] => Some st
  | t :: rest => st' ← rate_step st t; rate_loop st' rest
  end.

(** Lines 121-143: the rate of every trip. *)
Definition calc_rates (tp : Q) (trips : list trip) : option (gmap string Q) :=
  st ← rate_loop rate_init trips;
  Some (assign_all tp (current_trip_ids st) (rates st)).

(** The variables of the second loop (lines 146-148). *)
Record tank_state := TankState {
  zostatok_map : gmap string Q;
  spotreba_map : gmap string Q;
  zostatok : Q
}.

Definition tank_init (tank_size : Q) : tank_state :=
  {| zostatok_map := ∅; spotreba_map := ∅; zostatok := tank_size |}.

(** Lines 156-160: the refuel. *)
Definition refuel (tank_size : Q) (t : trip) (level : Q) : Q :=
  match Py.positive (fuel_liters t) with
  | Some f =>
    if Py.truthy_int (full_tank t) then tank_size
    else Py.min (level + f) tank_size
  | None => level
  end.

(** Line 162: [max(0, min(zostatok, tank_size))]. *)
Definition clamp (tank_size : Q) (level : Q) : Q :=
  Py.max 0 (Py.min level tank_size).

(** The body of the second loop (lines 151-163). *)
Definition tank_step (rs : gmap string Q) (tp tank_size : Q)
    (st : tank_state) (t : trip) : tank_state :=
  let rate := default tp (rs !! id t) in
  let spotreba := (distance_km t * rate) / 100 in
  let z := clamp tank_size (refuel tank_size t (zostatok st - spotreba)) in
  {| zostatok_map := <[id t := z]> (zostatok_map st);
     spotreba_map := <[id t := spotreba]> (spotreba_map st);
     zostatok := z |}.

Definition tank_loop (rs : gmap string Q) (tp tank_size : Q)
    (st : tank_state) (trips : list trip) : tank_state :=
  foldl (tank_step rs tp tank_size) st trips.

(** The dictionary returned by [get_calculated_values]. *)
Record calc_data := CalcData {
  c_rates : gmap string Q;
  c_zostatok : gmap string Q;
  c_spotreba : gmap string Q
}.

(** [get_calculated_values], on the vehicle row and the trips the
    query returned (that vehicle's trips of the year, by date then
    odometer).  [None] is a raised exception. *)
Definition get_calculated_values (v : vehicle) (trips : list trip)
  : option calc_data :=
  rs ← calc_rates (tp_consumption v) trips;
  let st := tank_loop rs (tp_consumption v) (tank_size_liters v)
              (tank_init (tank_size_liters v)) trips in
  Some {| c_rates := rs; c_zostatok := zostatok_map st;
          c_spotreba := spotreba_map st |}.

(** *** [compare_year] *)

(** The values a row dictionary holds: [None], a [str] or a [float]. *)
Inductive pyval :=
| PNone
| PStr (s : string)
| PFloat (q : Q).

(** Python's [==] on such values. *)
Definition pyval_eqb (a b : pyval) : bool :=
  match a, b with
  | PNone, PNone => true
  | PStr s, PStr s' => bool_decide (s = s')
  | PFloat x, PFloat y => Qeq_bool x y
  | _, _ => false
  end.

Definition opt_float (x : option Q) : pyval :=
  match x with Some q => PFloat q | None => PNone end.

(** One dictionary of [get_excel_data] (lines 46-58). *)
Record excel_trip := ExcelTrip {
  e_date : string;
  e_origin : string;
  e_destination : string;
  e_odometer : Q;
  e_purpose : string;
  e_fuel_liters : option Q;
  e_fuel_cost_eur : option Q;
  e_excel_spotreba : option Q;
  e_excel_zostatok : option Q;
  e_distance_km : Q;
  e_excel_rate : option Q
}.

(** [excel.get(field)]. *)
Definition excel_get (e : excel_trip) (field : string) : pyval :=
  if bool_decide (field = "date") then PStr (e_date e)
  else if bool_decide (field = "origin") then PStr (e_origin e)
  else if bool_decide (field = "destination") then PStr (e_destination e)
  else if bool_decide (field = "odometer") then PFloat (e_odometer e)
  else if bool_decide (field = "purpose") then PStr (e_purpose e)
  else if bool_decide (field = "fuel_liters") then opt_float (e_fuel_liters e)
  else if bool_decide (field = "fuel_cost_eur") then opt_float (e_fuel_cost_eur e)
  else if bool_decide (field = "excel_spotreba") then opt_float (e_excel_spotreba e)
  else if bool_decide (field = "excel_zostatok") then opt_float (e_excel_zostatok e)
  else if bool_decide (field = "distance_km") then PFloat (e_distance_km e)
  else if bool_decide (field = "excel_rate") then opt_float (e_excel_rate e)
  else PNone.

(** [db.get(field)] on a dictionary of [get_db_data] (lines 83-93). *)
Definition db_get (d : trip) (field : string) : pyval :=
  if bool_decide (field = "date") then PStr (date d)
  else if bool_decide (field = "origin") then PStr (origin d)
  else if bool_decide (field = "destination") then PStr (destination d)
  else if bool_decide (field = "odometer") then PFloat (odometer d)
  else if bool_decide (field = "purpose") then PStr (purpose d)
  else if bool_decide (field = "fuel_liters") then opt_float (fuel_liters d)
  else if bool_decide (field = "fuel_cost_eur") then opt_float (fuel_cost_eur d)
  else if bool_decide (field = "distance_km") then PFloat (distance_km d)
  else if bool_decide (field = "id") then PStr (id d)
  else PNone.

Record fixed_mismatch := FixedMismatch {
  fm_row : nat;
  fm_field : string;
  fm_excel : pyval;
  fm_db : pyval
}.

Record calc_mismatch := CalcMismatch {
  cm_row : nat;
  cm_field : string;
  cm_excel : Q;
  cm_calculated : Q;
  cm_diff : Q
}.

(** The [result] dictionary; [count_mismatch] is a key that is only
    present after a length mismatch. *)
Record result := Result {
  year : string;
  excel_count : nat;
  db_count : nat;
  fixed_mismatches : list fixed_mismatch;
  calc_mismatches : list calc_mismatch;
  count_mismatch : option bool
}.

Definition fixed_fields : list string :=
  ["date"; "origin"; "destination"; "distance_km"; "odometer"; "purpose";
   "fuel_liters"; "fuel_cost_eur"].

(** Lines 192-214, for one field: the list after the optional append. *)
Definition compare_fixed (row_num : nat) (excel : excel_trip) (db : trip)
    (acc : list fixed_mismatch) (field : string) : list fixed_mismatch :=
  let ev := excel_get excel field in
  let dv := db_get db field in
  let m := {| fm_row := row_num; fm_field := field; fm_excel := ev; fm_db := dv |} in
  match ev, dv with
  | PNone, PNone => acc
  | PFloat x, PFloat y =>
    if Py.ltb 0.01 (Py.abs (x - y)) then acc ++ [m] else acc
  | _, _ => if negb (pyval_eqb ev dv) then acc ++ [m] else acc
  end.

(** Lines 220-230, 233-243 and 246-256: one calculated value. *)
Definition compare_calc (row_num : nat) (field : string) (tol : Q)
    (excel_v calc_v : option Q) (acc : list calc_mismatch) : list calc_mismatch :=
  match excel_v, calc_v with
  | Some ev, Some cv =>
    if Py.ltb tol (Py.abs (ev - cv)) then
      acc ++ [{| cm_row := row_num; cm_field := field; cm_excel := ev;
                 cm_calculated := cv; cm_diff := Py.abs (ev - cv) |}]
    else acc
  | _, _ => acc
  end.

(** The body of the loop over the zipped rows (lines 187-256). *)
Definition compare_row (calc : calc_data) (i : nat) (excel : excel_trip)
    (db : trip) (res : result) : result :=
  let row_num := (i + 1)%nat in
  let fixed := foldl (compare_fixed row_num excel db) (fixed_mismatches res)
                 fixed_fields in
  let trip_id := id db in
  let c1 := compare_calc row_num "consumption_rate" 0.05
              (e_excel_rate excel) (c_rates calc !! trip_id) (calc_mismatches res) in
  let c2 := compare_calc row_num "spotreba" 0.1
              (e_excel_spotreba excel) (c_spotreba calc !! trip_id) c1 in
  let c3 := compare_calc row_num "zostatok" 0.5
              (e_excel_zostatok excel) (c_zostatok calc !! trip_id) c2 in
  {| year := year res; excel_count := excel_count res; db_count := db_count res;
     fixed_mismatches := fixed; calc_mismatches := c3;
     count_mismatch := count_mismatch res |}.

(** [for i, (excel, db) in enumerate(zip(excel_data, db_data))], from
    index [i]. *)
Fixpoint compare_rows (calc : calc_data) (i : nat) (excel_data : list excel_trip)
    (db_data : list trip) (res : result) : result :=
  match excel_data, db_data with
  | excel :: es, db :: ds =>
    compare_rows calc (S i) es ds (compare_row calc i excel db res)
  | _, _ => res
  end.

(** [compare_year], on the data its three readers return: the sheet's
    dictionaries, the vehicle row and the trips of the year. *)
Definition compare_year (yr : string) (excel_data : list excel_trip)
    (v : vehicle) (db_data : list trip) : option result :=
  calc ← get_calculated_values v db_data;
  let res := {| year := yr; excel_count := length excel_data;
                db_count := length db_data; fixed_mismatches := [];
                calc_mismatches := []; count_mismatch := None |} in
  if negb (Nat.eqb (length excel_data) (length db_data)) then
    Some {| year := year res; excel_count := excel_count res;
            db_count := db_count res; fixed_mismatches := fixed_mismatches res;
            calc_mismatches := calc_mismatches res; count_mismatch := Some true |}
  else Some (compare_rows calc 0 excel_data db_data res).

End CompareImport.

(** ** import_excel.py *)

Module ImportExcel.

(** A spreadsheet cell as [pd.read_excel] returns it: [NaN], text, a
    number, or a timestamp (year, month, day). *)
Inductive cell :=
| CNaN
| CStr (s : string)
| CNum (q : Q)
| CDate (y m d : nat).

(** The [vehicles] and [trips] tables. *)
Record database := Database {
  db_vehicles : list vehicle;
  db_trips : list trip
}.

(** How a run of [main] ends: [sys.exit(1)] after a message, an
    uncaught exception, or [conn.commit()] with the new [trips] table. *)
Inductive outcome :=
| Exit (msg : string)
| Raised
| Committed (table : list trip).

(** The [trips] table after the run: only a commit changes it. *)
Definition trips_after (o : outcome) (db : database) : list trip :=
  match o with
  | Committed table => table
  | _ => db_trips db
  end.

(** [pd.isna]. *)
Definition isna (c : cell) : bool :=
  match c with CNaN => true | _ => false end.

(** [str.lower], on ASCII letters. *)
Definition lower_ascii (c : ascii) : ascii :=
  let n := nat_of_ascii c in
  if (65 <=? n)%nat && (n <=? 90)%nat then ascii_of_nat (n + 32) else c.

Fixpoint lower (s : string) : string :=
  match s with
  | EmptyString => EmptyString
  | String c s' => String (lower_ascii c) (lower s')
  end.

(** [s.split('.')]. *)
Fixpoint split_dot (s : string) : list string :=
  match s with
  | EmptyString => [EmptyString]
  | String c s' =>
    if bool_decide (c = "."%char) then EmptyString :: split_dot s'
    else match split_dot s' with
         | h :: tl => String c h :: tl
         | [] => [String c EmptyString]
         end
  end.

(** [s.zfill(2)]: zeros go after a leading sign. *)
Definition zfill2 (s : string) : string :=
  match s with
  | EmptyString => "00"
  | String c EmptyString =>
    if bool_decide (c = "+"%char) || bool_decide (c = "-"%char)
    then String c "0" else String "0"%char s
  | _ => s
  end.

(** Decimal digits of [n], padded with zeros to [w] characters. *)
Fixpoint pad (w : nat) (s : string) : string :=
  match w with
  | O => s
  | S w' => if (String.length s <=? w')%nat then pad w' (String "0"%char s) else s
  end.

(** [ts.strftime('%Y-%m-%d')]. *)
Definition strftime_ymd (y m d : nat) : string :=
  pad 4 (pretty y) +:+ "-" +:+ pad 2 (pretty m) +:+ "-" +:+ pad 2 (pretty d).

Section Main.

(** Library functions the script relies on: [str] of a number,
    [float] of a text ([None] is [ValueError]), and SQLite's
    [strftime('%Y', date)] ([None] is [NULL]). *)
Variable num_str : Q → string.
Variable str_num : string → option Q.
Variable sql_year : string → option string.

(** [str(val)]. *)
Definition cell_str (c : cell) : string :=
  match c with
  | CNaN => "nan"
  | CStr s => s
  | CNum q => num_str q
  | CDate y m d => strftime_ymd y m d +:+ " 00:00:00"
  end.

(** [parse_date] (lines 32-41). *)
Definition parse_date (date_val : cell) : string :=
  match date_val with
  | CStr s =>
    match split_dot s with
    | [p0; p1; p2] => p2 +:+ "-" +:+ zfill2 p1 +:+ "-" +:+ zfill2 p0
    | _ => cell_str date_val
    end
  | CDate y m d => strftime_ymd y m d
  | _ => cell_str date_val
  end.

(** [parse_float] (lines 44-51). *)
Definition parse_float (val : cell) : option Q :=
  match val with
  | CNaN => None
  | CNum q => Some q
  | CStr s => str_num s
  | CDate _ _ _ => None
  end.

(** [parse_float(val) or 0.0]. *)
Definition parse_float_or_zero (val : cell) : Q :=
  match parse_float val with
  | Some f => if Py.truthy f then f else 0
  | None => 0
  end.

(** [str(val) if not pd.isna(val) else dflt]. *)
Definition str_or {A} (wrap : string → A) (dflt : A) (val : cell) : A :=
  if negb (isna val) then wrap (cell_str val) else dflt.

(** The test of lines 95 and 122: a blank or [Total] row. *)
Definition skipped (date_val : cell) : bool :=
  isna date_val || bool_decide (lower (cell_str date_val) = "total").

(** The first pass (lines 91-99): [None] is an [IndexError], [Some
    import_year] the variable after the loop. *)
Fixpoint first_pass (rows : list (list cell)) : option (option string) :=
  match rows with
  | [] => Some None
  | row :: rest =>
    date_val ← row !! 0%nat;
    if skipped date_val then first_pass rest
    else Some (Some (substring 0 4 (parse_date date_val)))
  end.

(** The row of the [DELETE] statement (lines 106-109). *)
Definition deleted (vid import_year : string) (t : trip) : bool :=
  bool_decide (vehicle_id t = vid)
  && bool_decide (sql_year (date t) = Some import_year).

(** The trip of one sheet row (lines 127-157); [None] is an
    [IndexError]. *)
Definition make_trip (vid now trip_id : string) (len_df : nat)
    (imported : nat) (date_val : cell) (row : list cell) : option trip :=
  c1 ← row !! 1%nat; c2 ← row !! 2%nat; c3 ← row !! 3%nat;
  c4 ← row !! 4%nat; c6 ← row !! 6%nat; c7 ← row !! 7%nat;
  c10 ← row !! 10%nat; c13 ← row !! 13%nat; c12 ← row !! 12%nat;
  Some {| id := trip_id;
          vehicle_id := vid;
          date := parse_date date_val;
          origin := str_or (fun s => s) "" c1;
          destination := str_or (fun s => s) "" c2;
          distance_km := parse_float_or_zero c10;
          odometer := parse_float_or_zero c3;
          purpose := str_or (fun s => s) "" c4;
          fuel_liters := parse_float c6;
          fuel_cost_eur := parse_float c7;
          other_costs_eur := parse_float c13;
          other_costs_note := str_or Some None c12;
          sort_order := (Z.of_nat len_df - 3 - Z.of_nat imported - 1)%Z;
          full_tank := 1%Z;
          created_at := now;
          updated_at := now |}.

(** The second loop (lines 117-160) on the rows from index 3:
    [imported] and the table after it; [None] is an exception
    ([IndexError], or [IntegrityError] when the primary key [id]
    is taken).  [uuids k] is the result of the [k]-th call of
    [uuid.uuid4()]. *)
Fixpoint insert_rows (vid now : string) (uuids : nat → string)
    (len_df : nat) (rows : list (list cell)) (imported : nat)
    (table : list trip) : option (nat * list trip) :=
  match rows with
  | [] => Some (imported, table)
  | row :: rest =>
    date_val ← row !! 0%nat;
    if skipped date_val then
      insert_rows vid now uuids len_df rest imported table
    else
      t ← make_trip vid now (uuids imported) len_df imported date_val row;
      if bool_decide (id t ∈ (id <$> table)) then None
      else insert_rows vid now uuids len_df rest (S imported) (table ++ [t])
  end.

(** [main] from line 74 on, for the sheet [df] and the database
    [db]. *)
Definition main (df : list (list cell)) (uuids : nat → string)
    (now : string) (db : database) : outcome :=
  match db_vehicles db with
  | [] => Exit "Error: No vehicle found in database"
  | v :: _ =>
    let vid := v_id v in
    match first_pass (drop 3 df) with
    | None => Raised
    | Some None => Exit "Error: No valid dates found in Excel data"
    | Some (Some import_year) =>
      if bool_decide (import_year = "") then
        Exit "Error: No valid dates found in Excel data"
      else
        let table := filter (fun t => negb (deleted vid import_year t))
                       (db_trips db) in
        match insert_rows vid now uuids (length df) (drop 3 df) 0 table with
        | None => Raised
        | Some (_, table') => Committed table'
        end
    end
  end.

End Main.

End ImportExcel.

(** ** create_showcase_db.py: the trips of [create_db] *)

Module Showcase.

(** [trips_data] (lines 132-157): date, origin, destination, km,
    fuel_liters, fuel_cost, purpose. *)
Definition trips_data
  : list (string * string * string * Q * option Q * option Q * string) :=
  [ ("2024-01-03", "Bratislava", "Trnava", 55, None, None, "stretnutie s klientom");
    ("2024-01-03", "Trnava", "Bratislava", 55, None, None, "návrat");
    ("2024-01-08", "Bratislava", "Nitra", 92, None, None, "obchodné rokovanie");
    ("2024-01-08", "Nitra", "Bratislava", 92, None, None, "návrat");
    ("2024-01-15", "Bratislava", "Senec", 28, None, None, "dodávka tovaru");
    ("2024-01-15", "Senec", "Bratislava", 28, Some 19.6, Some 31.36, "návrat + tankovanie");
    ("2024-02-05", "Bratislava", "Trenčín", 128, None, None, "školenie");
    ("2024-02-05", "Trenčín", "Bratislava", 128, None, None, "návrat");
    ("2024-02-12", "Bratislava", "Malacky", 42, None, None, "audit");
    ("2024-02-12", "Malacky", "Bratislava", 42, None, None, "návrat");
    ("2024-02-20", "Bratislava", "Dunajská Streda", 48, None, None, "stretnutie");
    ("2024-02-20", "Dunajská Streda", "Bratislava", 48, Some 28.9, Some 46.24, "návrat + tankovanie");
    ("2024-03-04", "Bratislava", "Žilina", 198, None, None, "konferencia");
    ("2024-03-04", "Žilina", "Bratislava", 198, None, None, "návrat");
    ("2024-03-11", "Bratislava", "Pezinok", 22, None, None, "obhliadka");
    ("2024-03-11", "Pezinok", "Bratislava", 22, None, None, "návrat");
    ("2024-03-18", "Bratislava", "Trnava", 55, None, None, "stretnutie s klientom");
    ("2024-03-18", "Trnava", "Bratislava", 55, Some 32.0, Some 51.20, "návrat + tankovanie") ].

(** The loop of lines 162-174: the rows it inserts, in order.  [k]
    counts the calls of [uuid.uuid4()]. *)
Fixpoint insert_trips (vid now : string) (uuids : nat → string)
    (data : list (string * string * string * Q * option Q * option Q * string))
    (k : nat) (odo : Q) (sort : Z) : list trip :=
  match data with
  | [] => []
  | (date_str, orig, dest, km, fuel, cost, purp) :: rest =>
    let trip_id := uuids k in
    let odo' := odo + km in
    {| id := trip_id; vehicle_id := vid; date := date_str; origin := orig;
       destination := dest; distance_km := km; odometer := odo';
       purpose := purp; fuel_liters := fuel; fuel_cost_eur := cost;
       other_costs_eur := None; other_costs_note := None;
       sort_order := sort; full_tank := 1%Z;
       created_at := now; updated_at := now |}
    :: insert_trips vid now uuids rest (S k) odo' (sort + 1)%Z
  end.

(** The vehicle row (line 123). *)
Definition showcase_vehicle (vid : string) : vehicle :=
  {| v_id := vid; tp_consumption := 5.1; tank_size_liters := 50.0 |}.

(** The [trips] table of the database [create_db] writes (lines
    159-174). *)
Definition create_db (vid now : string) (uuids : nat → string) : list trip :=
  insert_trips vid now uuids trips_data 0 45000.0 0%Z.

End Showcase.

(** * Vocabulary of the properties *)

Import CompareImport.

Section Vocabulary.

(** A step closes the period when it leaves the buffer empty: every
    step appends the trip's id first, so only the reset empties it. *)
Definition closes (st : rate_state) (t : trip) : Prop :=
  ∃ st', rate_step st t = Some st' ∧ current_trip_ids st' = [].

(** The guard of lines 130 and 133, as a proposition. *)
Definition closing_guard (st : rate_state) (t : trip) : Prop :=
  (∃ f, fuel_liters t = Some f ∧ 0 < f)
  ∧ full_tank t ≠ 0%Z
  ∧ 0 < km_in_period st + distance_km t.

(** The refuel the specification names as the end of a period: a
    positive [fuel_liters] with [full_tank] set. *)
Definition full_refuel (t : trip) : Prop :=
  (∃ f, fuel_liters t = Some f ∧ 0 < f) ∧ full_tank t ≠ 0%Z.

(** The fuel a trip adds to its period: a positive [fuel_liters]. *)
Definition fuel_added (t : trip) : Q :=
  match fuel_liters t with
  | Some f => if Qlt_le_dec 0 f then f else 0
  | None => 0
  end.

Definition total_distance (l : list trip) : Q :=
  foldr (fun t acc => distance_km t + acc) 0 l.

Definition total_fuel (l : list trip) : Q :=
  foldr (fun t acc => fuel_added t + acc) 0 l.

(** The buffer [current_trip_ids] once the first loop has scanned [l]. *)
Definition buffer_after (l : list trip) : option (list string) :=
  current_trip_ids <$> rate_loop rate_init l.

(** A period boundary: the scan of [pre] ends on an empty buffer. *)
Definition boundary (pre : list trip) : Prop :=
  buffer_after pre = Some [].

(** [seg], scanned after [pre], is a closed period: it runs from one
    boundary to the next. *)
Definition closed_period (pre seg : list trip) : Prop :=
  boundary pre ∧ seg ≠ [] ∧ boundary (pre ++ seg)
  ∧ ∀ p, p ≠ [] → p ≠ seg → p `prefix_of` seg → ¬ boundary (pre ++ p).

(** [tail], scanned after [pre], is the open trailing period: no
    boundary follows the one it starts at. *)
Definition open_period (pre tail : list trip) : Prop :=
  boundary pre ∧ ∀ p, p ≠ [] → p `prefix_of` tail → ¬ boundary (pre ++ p).

(** The tank level before a trip: the tank size before the first
    trip, the level recorded for the previous trip otherwise. *)
Definition level_before (tank_size : Q) (zs : gmap string Q) (pre : list trip)
  : option Q :=
  match last pre with
  | None => Some tank_size
  | Some p => zs !! id p
  end.

(** Equality of a fixed field, in the specification's words: both
    absent; two numbers no more than 0.01 apart; the same value
    otherwise. *)
Definition fixed_equal (r c : pyval) : Prop :=
  match r, c with
  | PNone, PNone => True
  | PFloat x, PFloat y => Qabs (x - y) <= 0.01
  | _, _ => r = c
  end.

(** [m] is the record of an unequal fixed field of row [row_num]. *)
Definition fixed_row_mismatch (row_num : nat) (e : excel_trip) (d : trip)
    (m : fixed_mismatch) : Prop :=
  ∃ field, field ∈ fixed_fields
    ∧ m = {| fm_row := row_num; fm_field := field;
             fm_excel := excel_get e field; fm_db := db_get d field |}
    ∧ ¬ fixed_equal (excel_get e field) (db_get d field).

(** The derived fields of a row: name, tolerance, reference value and
    calculated value. *)
Definition derived_fields (calc : calc_data) (e : excel_trip) (d : trip)
  : list (string * Q * option Q * option Q) :=
  [ ("consumption_rate", 0.05, e_excel_rate e, c_rates calc !! id d);
    ("spotreba", 0.1, e_excel_spotreba e, c_spotreba calc !! id d);
    ("zostatok", 0.5, e_excel_zostatok e, c_zostatok calc !! id d) ].

(** [m] is the record of a derived field of row [row_num] that both
    sides provide and that differs by more than its tolerance. *)
Definition derived_row_mismatch (calc : calc_data) (row_num : nat)
    (e : excel_trip) (d : trip) (m : calc_mismatch) : Prop :=
  ∃ field tol ev cv,
    (field, tol, Some ev, Some cv) ∈ derived_fields calc e d
    ∧ tol < Qabs (ev - cv)
    ∧ m = {| cm_row := row_num; cm_field := field; cm_excel := ev;
             cm_calculated := cv; cm_diff := Qabs (ev - cv) |}.

(** A trip row with the columns the calculation reads. *)
Definition sample_trip (tid : string) (km : Q) (fuel : option Q) (full : Z) : trip :=
  {| id := tid; vehicle_id := "v1"; date := "2024-01-15"; origin := "Bratislava";
     destination := "Senec"; distance_km := km; odometer := 45000; purpose := "";
     fuel_liters := fuel; fuel_cost_eur := None; other_costs_eur := None;
     other_costs_note := None; sort_order := 0%Z; full_tank := full;
     created_at := ""; updated_at := "" |}.

(** A full-tank refuel of 10 l logged with no distance, and the
    100 km trip with a full-tank refuel of 5 l that follows it. *)
Definition zero_km_refuel : trip := sample_trip "t0" 0 (Some 10) 1.
Definition next_refuel : trip := sample_trip "t1" 100 (Some 5) 1.

(** Sample inputs of the import: the library functions, a sheet of
    three header rows, two trips around a blank row and a [Total]
    row, and a database with one vehicle and two trips. *)
Definition sample_num_str (q : Q) : string := pretty (Qnum q / Z.pos (Qden q))%Z.
Definition sample_str_num (s : string) : option Q := None.
Definition sample_sql_year (s : string) : option string :=
  if bool_decide (String.length s = 10%nat) then Some (substring 0 4 s) else None.
Definition sample_uuids (k : nat) : string := "uuid-" +:+ pretty k.

Definition blank_row : list ImportExcel.cell := replicate 15 ImportExcel.CNaN.

Definition sheet_row (d : ImportExcel.cell) (odo : Q) (fuel km : ImportExcel.cell)
  : list ImportExcel.cell :=
  [ d; ImportExcel.CStr "Bratislava"; ImportExcel.CStr "Trnava";
    ImportExcel.CNum odo; ImportExcel.CStr "klient"; ImportExcel.CNaN; fuel;
    ImportExcel.CNaN; ImportExcel.CNaN; ImportExcel.CNaN; km;
    ImportExcel.CNaN; ImportExcel.CNaN; ImportExcel.CNaN; ImportExcel.CNaN ].

Definition sample_sheet : list (list ImportExcel.cell) :=
  [ blank_row; blank_row; blank_row;
    sheet_row (ImportExcel.CStr "3.1.2024") 45055 ImportExcel.CNaN
      (ImportExcel.CNum 55);
    blank_row;
    sheet_row (ImportExcel.CDate 2024 1 15) 45110 (ImportExcel.CNum 19.6)
      (ImportExcel.CNum 55);
    ImportExcel.CStr "Total" :: replicate 14 ImportExcel.CNaN ].

Definition sample_vehicle : vehicle :=
  {| v_id := "v1"; tp_consumption := 5.1; tank_size_liters := 50 |}.

Definition stored_trip (tid day : string) : trip :=
  {| id := tid; vehicle_id := "v1"; date := day; origin := "Bratislava";
     destination := "Nitra"; distance_km := 92; odometer := 44000; purpose := "";
     fuel_liters := None; fuel_cost_eur := None; other_costs_eur := None;
     other_costs_note := None; sort_order := 0%Z; full_tank := 1%Z;
     created_at := ""; updated_at := "" |}.

Definition sample_db : ImportExcel.database :=
  {| ImportExcel.db_vehicles := [sample_vehicle];
     ImportExcel.db_trips :=
       [stored_trip "old-2023" "2023-12-20"; stored_trip "old-2024" "2024-02-01"] |}.

(** A sheet whose only trip is a refuel of 10 l with no distance. *)
Definition zero_km_sheet : list (list ImportExcel.cell) :=
  [ blank_row; blank_row; blank_row;
    sheet_row (ImportExcel.CStr "15.1.2024") 45000 (ImportExcel.CNum 10)
      ImportExcel.CNaN ].

(** A reference row for the comparison. *)
Definition sample_excel_trip (km : Q) : excel_trip :=
  {| e_date := "2024-01-15"; e_origin := "Bratislava"; e_destination := "Senec";
     e_odometer := 45000; e_purpose := ""; e_fuel_liters := None;
     e_fuel_cost_eur := None; e_excel_spotreba := Some 2.8;
     e_excel_zostatok := Some 40; e_distance_km := km; e_excel_rate := Some 5.1 |}.

End Vocabulary.

(** ** compare_import.py: the readers and the loop of [main] *)

Module CompareReaders.

Section Readers.

Variable num_str : Q → string.
Variable str_num : string → option Q.
Variable sql_year : string → option string.

(** [float(val)] on a cell that is not [NaN]; [None] is [ValueError]
    or [TypeError]. *)
Definition to_float (val : ImportExcel.cell) : option Q :=
  match val with
  | ImportExcel.CNum q => Some q
  | ImportExcel.CStr s => str_num s
  | ImportExcel.CDate _ _ _ => None
  | ImportExcel.CNaN => None
  end.

(** [float(val) if not pd.isna(val) else dflt]. *)
Definition float_or {A} (wrap : Q → A) (dflt : A) (val : ImportExcel.cell)
  : option A :=
  if negb (ImportExcel.isna val) then wrap <$> to_float val else Some dflt.

(** One dictionary of [get_excel_data] (lines 46-58); [None] is an
    exception. *)
Definition excel_dict (date_val : ImportExcel.cell) (row : list ImportExcel.cell)
  : option excel_trip :=
  c1 ← row !! 1%nat; c2 ← row !! 2%nat; c3 ← row !! 3%nat; c4 ← row !! 4%nat;
  c6 ← row !! 6%nat; c7 ← row !! 7%nat; c8 ← row !! 8%nat; c11 ← row !! 11%nat;
  c10 ← row !! 10%nat; c14 ← row !! 14%nat;
  odo ← float_or (λ q, q) 0 c3;
  fuel ← float_or Some None c6;
  cost ← float_or Some None c7;
  spotreba ← float_or Some None c8;
  zostatok ← float_or Some None c11;
  km ← float_or (λ q, q) 0 c10;
  rate ← float_or Some None c14;
  Some {| e_date := ImportExcel.parse_date num_str date_val;
          e_origin := ImportExcel.str_or num_str (λ s, s) "" c1;
          e_destination := ImportExcel.str_or num_str (λ s, s) "" c2;
          e_odometer := odo;
          e_purpose := ImportExcel.str_or num_str (λ s, s) "" c4;
          e_fuel_liters := fuel;
          e_fuel_cost_eur := cost;
          e_excel_spotreba := spotreba;
          e_excel_zostatok := zostatok;
          e_distance_km := km;
          e_excel_rate := rate |}.

(** The loop of [get_excel_data] (lines 40-58) on the rows from
    index 3. *)
Fixpoint excel_rows (rows : list (list ImportExcel.cell))
  : option (list excel_trip) :=
  match rows with
  | [] => Some []
  | row :: rest =>
    date_val ← row !! 0%nat;
    if ImportExcel.skipped num_str date_val then excel_rows rest
    else
      e ← excel_dict date_val row;
      es ← excel_rows rest;
      Some (e :: es)
  end.

(** [get_excel_data], on the sheet. *)
Definition get_excel_data (df : list (list ImportExcel.cell))
  : option (list excel_trip) :=
  excel_rows (drop 3 df).

(** [ORDER BY date ASC, odometer ASC]: texts by their bytes, then
    numbers. *)
Definition key_leb (a b : trip) : bool :=
  match String_as_OT.compare (date a) (date b) with
  | Lt => true
  | Eq => Qle_bool (odometer a) (odometer b)
  | Gt => false
  end.

Definition key_le (a b : trip) : Prop := key_leb a b = true.

#[global] Instance key_le_dec (a b : trip) : Decision (key_le a b) :=
  decide (key_leb a b = true).

(** The query of [get_db_data] and of [get_calculated_values] (lines
    73-79 and 110-115).  Rows that tie on both keys keep their table
    order here; SQL leaves their order open. *)
Definition select_year (vid yr : string) (table : list trip) : list trip :=
  merge_sort key_le (filter (λ t, ImportExcel.deleted sql_year vid yr t) table).

(** [get_db_data]; [None] is the [TypeError] of [fetchone()[0]] on an
    empty [vehicles] table. *)
Definition get_db_data (yr : string) (db : ImportExcel.database)
  : option (list trip) :=
  match ImportExcel.db_vehicles db with
  | [] => None
  | v :: _ => Some (select_year (v_id v) yr (ImportExcel.db_trips db))
  end.

(** [compare_year], on the sheet and the database. *)
Definition compare_year_db (df : list (list ImportExcel.cell)) (yr : string)
    (db : ImportExcel.database) : option result :=
  excel_data ← get_excel_data df;
  db_data ← get_db_data yr db;
  match ImportExcel.db_vehicles db with
  | [] => None
  | v :: _ => compare_year yr excel_data v db_data
  end.

(** What the loop of [main] does for one sheet (lines 266-289). *)
Inductive sheet_report :=
| ImportFailed
| CompareRaised
| Compared (res : result).

Definition check_sheet (df : list (list ImportExcel.cell)) (yr : string)
    (uuids : nat → string) (now : string) (db : ImportExcel.database)
  : sheet_report :=
  match ImportExcel.main num_str str_num sql_year df uuids now db with
  | ImportExcel.Committed table' =>
    match compare_year_db df yr
            {| ImportExcel.db_vehicles := ImportExcel.db_vehicles db;
               ImportExcel.db_trips := table' |} with
    | Some res => Compared res
    | None => CompareRaised
    end
  | _ => ImportFailed
  end.

End Readers.

End CompareReaders.

(** A trip strictly before another in the order of the query. *)
Definition key_lt (a b : trip) : Prop :=
  CompareReaders.key_le a b ∧ ¬ CompareReaders.key_le b a.

(** A reference row and a stored trip agree on every fixed field. *)
Definition fixed_agree (e : excel_trip) (d : trip) : Prop :=
  ∀ field, field ∈ fixed_fields → fixed_equal (excel_get e field) (db_get d field).

(** * Vocabulary of the further properties *)

Section FurtherVocabulary.

(** A run of trips that ends a period, read off the data alone: its
    last trip is a full-tank refuel and the run has covered distance. *)
Definition ends_period (run : list trip) : Prop :=
  ∃ body last, run = body ++ [last] ∧ full_refuel last ∧ 0 < total_distance run.

(** [seg] is a period: it ends one, and no shorter prefix of it does. *)
Definition first_end (seg : list trip) : Prop :=
  ends_period seg ∧ ∀ p, p `prefix_of` seg → p ≠ seg → ¬ ends_period p.

(** No prefix of [tail] ends a period. *)
Definition no_end (tail : list trip) : Prop :=
  ∀ p, p `prefix_of` tail → ¬ ends_period p.

(** The consumption recorded for the trips of [l], summed. *)
Definition total_consumed (sp : gmap string Q) (l : list trip) : Q :=
  foldr (λ t acc, default 0 (sp !! id t) + acc) 0 l.

End FurtherVocabulary.

(** ** Vocabulary of the import *)

Section ImportVocabulary.

Variable num_str : Q → string.
Variable str_num : string → option Q.

(** The trips the second loop builds from the sheet rows, without the
    table: [None] when a row is too short. *)
Fixpoint sheet_trips (vid now : string) (uuids : nat → string) (len_df : nat)
    (rows : list (list ImportExcel.cell)) (imported : nat) : option (list trip) :=
  match rows with
  | [] => Some []
  | row :: rest =>
    date_val ← row !! 0%nat;
    if ImportExcel.skipped num_str date_val then
      sheet_trips vid now uuids len_df rest imported
    else
      t ← ImportExcel.make_trip num_str str_num vid now (uuids imported) len_df
             imported date_val row;
      new ← sheet_trips vid now uuids len_df rest (S imported);
      Some (t :: new)
  end.

(** The rows the loops pass over: a blank first cell or [Total]. *)
Definition skipped_row (row : list ImportExcel.cell) : bool :=
  match row !! 0%nat with
  | Some date_val => ImportExcel.skipped num_str date_val
  | None => false
  end.

Definition count_skipped (rows : list (list ImportExcel.cell)) : nat :=
  length (filter (λ row, skipped_row row = true) rows).

(** Two trips that differ at most in [id], [created_at] and
    [updated_at]. *)
Definition same_trip_data (a b : trip) : Prop :=
  vehicle_id a = vehicle_id b ∧ date a = date b ∧ origin a = origin b
  ∧ destination a = destination b ∧ distance_km a = distance_km b
  ∧ odometer a = odometer b ∧ purpose a = purpose b
  ∧ fuel_liters a = fuel_liters b ∧ fuel_cost_eur a = fuel_cost_eur b
  ∧ other_costs_eur a = other_costs_eur b
  ∧ other_costs_note a = other_costs_note b
  ∧ sort_order a = sort_order b ∧ full_tank a = full_tank b.

End ImportVocabulary.

(** The identifiers of a second run, and the table a first import of
    the sample sheet leaves: one kept trip, then the inserted ones. *)
Definition second_uuids (k : nat) : string := "again-" +:+ pretty k.

Definition sample_first_run : list trip :=
  ImportExcel.trips_after
    (ImportExcel.main sample_num_str sample_str_num sample_sql_year sample_sheet
       sample_uuids "now" sample_db) sample_db.

(** A text without a dot. *)
Fixpoint no_dot (s : string) : bool :=
  match s with
  | EmptyString => true
  | String c s' => negb (bool_decide (c = "."%char)) && no_dot s'
  end.

(** * Properties *)

(** ** Python numerics *)

Section PyFacts.

Lemma ltb_true (a b : Q) : Py.ltb a b = true ↔ a < b.
Proof.
  unfold Py.ltb. rewrite negb_true_iff.
  destruct (Qle_bool b a) eqn:E.
  - apply Qle_bool_iff in E. split; [discriminate|]. intros H.
    exfalso. exact (Qlt_not_le _ _ H E).
  - split; [|reflexivity]. intros _. apply Qnot_le_lt. intros H.
    apply Qle_bool_iff in H. congruence.
Qed.

Lemma ltb_false (a b : Q) : Py.ltb a b = false ↔ b <= a.
Proof.
  split.
  - intros E. apply Qnot_lt_le. intros H. apply ltb_true in H. congruence.
  - intros H. destruct (Py.ltb a b) eqn:E; [|reflexivity].
    apply ltb_true in E. exfalso. exact (Qlt_not_le _ _ E H).
Qed.

Lemma positive_Some (x : option Q) (f : Q) :
  Py.positive x = Some f ↔ x = Some f ∧ 0 < f.
Proof.
  unfold Py.positive. destruct x as [g|]; [|split; [discriminate|intros [? _]; discriminate]].
  destruct (Py.truthy g && Py.ltb 0 g) eqn:E.
  - apply andb_true_iff in E as [_ E]. apply ltb_true in E.
    split; [intros [= <-]; auto|intros [[= <-] _]; reflexivity].
  - split; [discriminate|]. intros [[= <-] H]. exfalso.
    apply andb_false_iff in E as [E|E].
    + unfold Py.truthy in E. apply negb_false_iff, Qeq_bool_iff in E.
      rewrite E in H. exact (Qlt_irrefl _ H).
    + apply ltb_false in E. exact (Qlt_not_le _ _ H E).
Qed.

Lemma positive_None (x : option Q) :
  Py.positive x = None ↔ x = None ∨ ∃ f, x = Some f ∧ f <= 0.
Proof.
  split.
  - intros E. destruct x as [g|]; [right|left; reflexivity].
    exists g. split; [reflexivity|]. apply Qnot_lt_le. intros H.
    assert (Py.positive (Some g) = Some g) as E' by (apply positive_Some; auto).
    congruence.
  - intros [->|[f [-> H]]]; [reflexivity|].
    destruct (Py.positive (Some f)) as [g|] eqn:E; [|reflexivity].
    apply positive_Some in E as [[= <-] E]. exfalso. exact (Qlt_not_le _ _ E H).
Qed.

Lemma div_nonzero (a b : Q) : ¬ b == 0 → Py.div a b = Some (a / b).
Proof.
  intros H. unfold Py.div. destruct (Qeq_bool b 0) eqn:E; [|reflexivity].
  apply Qeq_bool_iff in E. contradiction.
Qed.

Lemma min_le_l (a b : Q) : Py.min a b <= a.
Proof.
  unfold Py.min. destruct (Py.ltb b a) eqn:E.
  - apply ltb_true in E. apply Qlt_le_weak, E.
  - apply Qle_refl.
Qed.

Lemma min_le_r (a b : Q) : Py.min a b <= b.
Proof.
  unfold Py.min. destruct (Py.ltb b a) eqn:E.
  - apply Qle_refl.
  - apply ltb_false in E. exact E.
Qed.

Lemma max_ge_l (a b : Q) : a <= Py.max a b.
Proof.
  unfold Py.max. destruct (Py.ltb a b) eqn:E.
  - apply ltb_true in E. apply Qlt_le_weak, E.
  - apply Qle_refl.
Qed.

Lemma max_lub (a b c : Q) : a <= c → b <= c → Py.max a b <= c.
Proof. intros Ha Hb. unfold Py.max. destruct (Py.ltb a b); assumption. Qed.

Lemma min_Qmin (a b : Q) : Py.min a b == Qmin a b.
Proof.
  unfold Py.min. destruct (Py.ltb b a) eqn:E.
  - apply ltb_true in E. symmetry. apply Q.min_r. apply Qlt_le_weak, E.
  - apply ltb_false in E. symmetry. apply Q.min_l, E.
Qed.

Lemma max_Qmax (a b : Q) : Py.max a b == Qmax a b.
Proof.
  unfold Py.max. destruct (Py.ltb a b) eqn:E.
  - apply ltb_true in E. symmetry. apply Q.max_r. apply Qlt_le_weak, E.
  - apply ltb_false in E. symmetry. apply Q.max_l, E.
Qed.

Lemma clamp_Qmax_Qmin (tank_size level : Q) :
  clamp tank_size level == Qmax 0 (Qmin level tank_size).
Proof. unfold clamp. rewrite max_Qmax, min_Qmin. reflexivity. Qed.

(** The clamp of line 162 lands in [[0, tank_size]]. *)
Lemma clamp_range (tank_size level : Q) :
  0 <= tank_size → 0 <= clamp tank_size level ∧ clamp tank_size level <= tank_size.
Proof.
  intros H. unfold clamp. split; [apply max_ge_l|].
  apply max_lub; [exact H|apply min_le_r].
Qed.

(** Inside the bounds the clamp changes nothing. *)
Lemma clamp_id (tank_size level : Q) :
  0 <= level → level <= tank_size → clamp tank_size level == level.
Proof.
  intros H0 H1. unfold clamp, Py.min, Py.max.
  destruct (Py.ltb tank_size level) eqn:E.
  - apply ltb_true in E. exfalso. exact (Qlt_not_le _ _ E H1).
  - destruct (Py.ltb 0 level) eqn:E'; [reflexivity|].
    apply ltb_false in E'. apply Qle_antisym; assumption.
Qed.

End PyFacts.

(** ** The first loop: periods and rates *)

Section Rates.

Lemma truthy_int_true (z : Z) : Py.truthy_int z = true ↔ z ≠ 0%Z.
Proof. unfold Py.truthy_int. rewrite negb_true_iff. apply Z.eqb_neq. Qed.

Lemma guard_div (a km : Q) : Py.ltb 0 km = true → Py.div a km = Some (a / km).
Proof.
  intros H. apply div_nonzero. apply ltb_true in H. intros E.
  rewrite E in H. exact (Qlt_irrefl _ H).
Qed.

(** The loop body never raises: the division is guarded. *)
Lemma rate_step_total (st : rate_state) (t : trip) : is_Some (rate_step st t).
Proof.
  unfold rate_step. destruct (Py.positive (fuel_liters t)) as [f|]; [|eauto].
  destruct (Py.truthy_int (full_tank t) && Py.ltb 0 (km_in_period st + distance_km t)) eqn:E;
    [|eauto].
  apply andb_true_iff in E as [_ E]. rewrite (guard_div _ _ E). simpl. eauto.
Qed.

Lemma rate_loop_total (trips : list trip) (st : rate_state) :
  is_Some (rate_loop st trips).
Proof.
  revert st. induction trips as [|t rest IH]; intros st; simpl; [eauto|].
  destruct (rate_step_total st t) as [st' ->]. simpl. apply IH.
Qed.

Lemma rate_loop_app (l1 l2 : list trip) (st : rate_state) :
  rate_loop st (l1 ++ l2) = st' ← rate_loop st l1; rate_loop st' l2.
Proof.
  revert st. induction l1 as [|t l1 IH]; intros st; simpl; [reflexivity|].
  destruct (rate_step st t) as [st'|]; simpl; [apply IH|reflexivity].
Qed.

Lemma calc_rates_total (tp : Q) (trips : list trip) : is_Some (calc_rates tp trips).
Proof.
  unfold calc_rates. destruct (rate_loop_total trips rate_init) as [st ->].
  simpl. eauto.
Qed.

Lemma get_calculated_values_total (v : vehicle) (trips : list trip) :
  is_Some (get_calculated_values v trips).
Proof.
  unfold get_calculated_values.
  destruct (calc_rates_total (tp_consumption v) trips) as [rs ->]. simpl. eauto.
Qed.

Lemma assign_all_in (rate : Q) (ids : list string) (r : gmap string Q) (tid : string) :
  tid ∈ ids → assign_all rate ids r !! tid = Some rate.
Proof.
  unfold assign_all. revert r. induction ids as [|x ids IH] using rev_ind; intros r Hin.
  - inversion Hin.
  - rewrite foldl_app. simpl. rewrite lookup_insert. case_decide; [reflexivity|].
    apply IH. apply elem_of_app in Hin as [Hin|Hin]; [exact Hin|].
    apply list_elem_of_singleton in Hin. congruence.
Qed.

Lemma assign_all_notin (rate : Q) (ids : list string) (r : gmap string Q) (tid : string) :
  tid ∉ ids → assign_all rate ids r !! tid = r !! tid.
Proof.
  unfold assign_all. revert r. induction ids as [|x ids IH]; intros r Hin; [reflexivity|].
  simpl. rewrite IH by (intros H; apply Hin; right; exact H).
  apply lookup_insert_ne. intros ->. apply Hin. left.
Qed.

Lemma fuel_added_positive (t : trip) :
  fuel_added t = default 0 (Py.positive (fuel_liters t)).
Proof.
  unfold fuel_added. destruct (fuel_liters t) as [f|] eqn:E; [|reflexivity].
  destruct (Qlt_le_dec 0 f) as [H|H].
  - assert (Py.positive (Some f) = Some f) as -> by (apply positive_Some; auto).
    reflexivity.
  - assert (Py.positive (Some f) = None) as -> by (apply positive_None; eauto).
    reflexivity.
Qed.

(** What one iteration does to the loop variables: it either closes
    the period, under the guard, or buffers the trip. *)
Lemma rate_step_cases (st : rate_state) (t : trip) :
  (closing_guard st t
   ∧ rate_step st t = Some
       {| rates := assign_all
                     ((fuel_in_period st + fuel_added t)
                      / (km_in_period st + distance_km t) * 100)
                     (current_trip_ids st ++ [id t]) (rates st);
          current_trip_ids := []; km_in_period := 0; fuel_in_period := 0 |})
  ∨ (¬ closing_guard st t
     ∧ ∃ fuel, fuel == fuel_in_period st + fuel_added t
       ∧ rate_step st t = Some
           {| rates := rates st;
              current_trip_ids := current_trip_ids st ++ [id t];
              km_in_period := km_in_period st + distance_km t;
              fuel_in_period := fuel |}).
Proof.
  unfold rate_step, closing_guard. rewrite fuel_added_positive.
  destruct (Py.positive (fuel_liters t)) as [f|] eqn:Ef.
  - apply positive_Some in Ef as [Ef Hf]. simpl.
    destruct (Py.truthy_int (full_tank t)) eqn:Et; simpl.
    + apply truthy_int_true in Et.
      destruct (Py.ltb 0 (km_in_period st + distance_km t)) eqn:Ek.
      * left. rewrite (guard_div _ _ Ek). simpl. apply ltb_true in Ek.
        split; [|reflexivity]. eauto.
      * right. apply ltb_false in Ek. split.
        -- intros (_ & _ & H). exact (Qlt_not_le _ _ H Ek).
        -- eexists. split; [|reflexivity]. reflexivity.
    + right. split.
      * intros (_ & H & _). apply truthy_int_true in H. congruence.
      * eexists. split; [|reflexivity]. reflexivity.
  - right. apply positive_None in Ef. split.
    + intros ((f & E & Hf) & _). destruct Ef as [Ef|(g & Eg & Hg)]; [congruence|].
      assert (g = f) as -> by congruence. exact (Qlt_not_le _ _ Hf Hg).
    + eexists. split; [|reflexivity]. simpl. rewrite Qplus_0_r. reflexivity.
Qed.

(** The period closes exactly under the guard. *)
Lemma closes_iff_guard (st : rate_state) (t : trip) :
  closes st t ↔ closing_guard st t.
Proof.
  unfold closes. destruct (rate_step_cases st t) as [[G E]|[G (fuel & _ & E)]]; rewrite E.
  - split; [auto|]. intros _. eexists. split; reflexivity.
  - split; [|contradiction]. intros (st' & [= <-] & H). simpl in H.
    destruct (current_trip_ids st); discriminate.
Qed.

Lemma total_distance_app (a b : list trip) :
  total_distance (a ++ b) == total_distance a + total_distance b.
Proof.
  unfold total_distance. induction a as [|t a IH]; simpl; [ring|].
  rewrite IH. ring.
Qed.

Lemma total_fuel_app (a b : list trip) :
  total_fuel (a ++ b) == total_fuel a + total_fuel b.
Proof.
  unfold total_fuel. induction a as [|t a IH]; simpl; [ring|].
  rewrite IH. ring.
Qed.

Lemma total_distance_snoc (a : list trip) (t : trip) :
  total_distance (a ++ [t]) == total_distance a + distance_km t.
Proof. rewrite total_distance_app. unfold total_distance. simpl. ring. Qed.

Lemma total_fuel_snoc (a : list trip) (t : trip) :
  total_fuel (a ++ [t]) == total_fuel a + fuel_added t.
Proof. rewrite total_fuel_app. unfold total_fuel. simpl. ring. Qed.

Lemma rate_loop_snoc (l : list trip) (t : trip) (st : rate_state) :
  rate_loop st (l ++ [t]) = st' ← rate_loop st l; rate_step st' t.
Proof.
  rewrite rate_loop_app. destruct (rate_loop st l) as [st'|]; [|reflexivity].
  simpl. destruct (rate_step st' t); reflexivity.
Qed.

Lemma boundary_nil : boundary [].
Proof. reflexivity. Qed.

Lemma buffer_after_snoc (l : list trip) (t : trip) (st : rate_state) :
  rate_loop rate_init l = Some st →
  buffer_after (l ++ [t]) = current_trip_ids <$> rate_step st t.
Proof.
  intros E. unfold buffer_after. rewrite rate_loop_snoc, E. reflexivity.
Qed.

(** The loop variables after any scan: the buffer holds the trips
    since the last boundary, with their distance and fuel summed. *)
Lemma scan_invariant (l : list trip) :
  ∃ st pre buf,
    rate_loop rate_init l = Some st
    ∧ l = pre ++ buf ∧ open_period pre buf
    ∧ current_trip_ids st = id <$> buf
    ∧ km_in_period st == total_distance buf
    ∧ fuel_in_period st == total_fuel buf.
Proof.
  induction l as [|t l IH] using rev_ind.
  - exists rate_init, [], []. repeat split; try reflexivity.
    intros p Hp [k Hk]. destruct p; [congruence|discriminate].
  - destruct IH as (st & pre & buf & E & -> & [Hb Hopen] & Hids & Hkm & Hfuel).
    pose proof (buffer_after_snoc _ t _ E) as Hsnoc.
    destruct (rate_step_cases st t) as [[G Es]|[G (fuel & Hf & Es)]].
    + eexists _, ((pre ++ buf) ++ [t]), []. rewrite rate_loop_snoc, E. simpl.
      split; [exact Es|]. simpl. rewrite app_nil_r.
      repeat split; try reflexivity.
      * unfold boundary. rewrite Hsnoc, Es. reflexivity.
      * intros p Hp [k Hk]. destruct p; [congruence|discriminate].
    + eexists _, pre, (buf ++ [t]). rewrite rate_loop_snoc, E. simpl.
      split; [exact Es|]. simpl. rewrite <- app_assoc.
      repeat split; try reflexivity; try exact Hb.
      * intros p Hp [k Hk] Hbd.
        destruct k as [|x k] using rev_ind.
        -- rewrite app_nil_r in Hk. subst p. unfold boundary in Hbd.
           rewrite app_assoc, Hsnoc, Es in Hbd. simpl in Hbd.
           destruct (current_trip_ids st); discriminate.
        -- clear IHk. rewrite app_assoc in Hk. apply app_inj_tail in Hk as [Hk _].
           apply (Hopen p Hp); [exists k; exact Hk|exact Hbd].
      * rewrite Hids, fmap_app. reflexivity.
      * rewrite total_distance_snoc, Hkm. reflexivity.
      * rewrite total_fuel_snoc, Hf, Hfuel. reflexivity.
Qed.

End Rates.

(** ** The second loop: the tank level *)

Section Tank.

Variables (rs : gmap string Q) (tp tank_size : Q).

Lemma tank_loop_app (l1 l2 : list trip) (st : tank_state) :
  tank_loop rs tp tank_size st (l1 ++ l2)
  = tank_loop rs tp tank_size (tank_loop rs tp tank_size st l1) l2.
Proof. unfold tank_loop. apply foldl_app. Qed.

(** Every level the loop records is one the clamp produced. *)
Lemma tank_loop_recorded (P : Q → Prop) (trips : list trip) (st : tank_state) :
  (∀ level, P (clamp tank_size level)) →
  (∀ tid z, zostatok_map st !! tid = Some z → P z) →
  ∀ tid z, zostatok_map (tank_loop rs tp tank_size st trips) !! tid = Some z → P z.
Proof.
  intros HP. revert st. induction trips as [|t rest IH]; intros st Hst; [exact Hst|].
  simpl. apply IH. intros tid z. unfold tank_step at 1. simpl.
  rewrite lookup_insert. case_decide; [intros [= <-]; apply HP|apply Hst].
Qed.

(** Every trip gets a level and a consumption recorded. *)
Lemma tank_loop_covers (trips : list trip) (st : tank_state) (t : trip) :
  t ∈ trips →
  is_Some (zostatok_map (tank_loop rs tp tank_size st trips) !! id t)
  ∧ is_Some (spotreba_map (tank_loop rs tp tank_size st trips) !! id t).
Proof.
  intros Hin. apply list_elem_of_split in Hin as (l1 & l2 & ->).
  rewrite tank_loop_app.
  generalize (tank_loop rs tp tank_size st l1). intros st1.
  simpl. set (st2 := tank_step rs tp tank_size st1 t).
  assert (is_Some (zostatok_map st2 !! id t) ∧ is_Some (spotreba_map st2 !! id t)) as H.
  { unfold st2, tank_step. simpl. rewrite !lookup_insert_eq. eauto. }
  clearbody st2. revert st2 H. induction l2 as [|u l2 IH]; intros st2 H; [exact H|].
  simpl. apply IH. unfold tank_step. simpl.
  rewrite !lookup_insert. destruct H. split; case_decide; eauto.
Qed.

(** Later iterations leave the records of an id they do not meet. *)
Lemma tank_loop_frame (l : list trip) (st : tank_state) (tid : string) :
  tid ∉ id <$> l →
  zostatok_map (tank_loop rs tp tank_size st l) !! tid = zostatok_map st !! tid
  ∧ spotreba_map (tank_loop rs tp tank_size st l) !! tid = spotreba_map st !! tid.
Proof.
  revert st. induction l as [|t l IH]; intros st Hl; [auto|].
  rewrite fmap_cons, not_elem_of_cons in Hl. destruct Hl as [Hne Hl].
  simpl. destruct (IH (tank_step rs tp tank_size st t) Hl) as [-> ->].
  unfold tank_step. simpl. rewrite !lookup_insert_ne by congruence. auto.
Qed.

Lemma tank_step_records (st : tank_state) (t : trip) :
  let consumed := distance_km t * default tp (rs !! id t) / 100 in
  zostatok_map (tank_step rs tp tank_size st t) !! id t
  = Some (clamp tank_size (refuel tank_size t (zostatok st - consumed)))
  ∧ spotreba_map (tank_step rs tp tank_size st t) !! id t = Some consumed.
Proof. unfold tank_step. simpl. rewrite !lookup_insert_eq. auto. Qed.

(** The running level is the one recorded for the last trip. *)
Lemma tank_loop_level (l : list trip) (st : tank_state) :
  level_before (zostatok st) (zostatok_map (tank_loop rs tp tank_size st l)) l
  = Some (zostatok (tank_loop rs tp tank_size st l)).
Proof.
  unfold level_before. destruct l as [|p l _] using rev_ind; [reflexivity|].
  rewrite last_snoc, tank_loop_app. simpl. unfold tank_step. simpl.
  apply lookup_insert_eq.
Qed.

End Tank.

(** C4. For every vehicle with a tank of non-negative capacity and every
    sequence of trips, [get_calculated_values] returns (it never raises),
    every trip has a recorded [zostatok] (fuel remaining), and every
    recorded [zostatok] lies within [[0, tank_size]]. *)
Theorem fuel_remaining_within_tank (v : vehicle) (trips : list trip) :
  0 <= tank_size_liters v →
  ∃ c, get_calculated_values v trips = Some c
       ∧ (∀ t, t ∈ trips → is_Some (c_zostatok c !! id t))
       ∧ (∀ tid z, c_zostatok c !! tid = Some z →
            0 <= z ∧ z <= tank_size_liters v).
Proof.
  intros Hcap. unfold get_calculated_values.
  destruct (calc_rates_total (tp_consumption v) trips) as [rs ->]. simpl.
  eexists. split; [reflexivity|]. simpl. split.
  - intros t Hin. eapply tank_loop_covers, Hin.
  - apply tank_loop_recorded.
    + intros level. apply clamp_range, Hcap.
    + intros tid z. simpl. rewrite lookup_empty. discriminate.
Qed.

Section Periods.

(** Later iterations leave the rate of an id they do not meet alone. *)
Lemma rate_loop_frame (l : list trip) (st st' : rate_state) (tid : string) :
  rate_loop st l = Some st' →
  tid ∉ current_trip_ids st → tid ∉ id <$> l →
  rates st' !! tid = rates st !! tid ∧ tid ∉ current_trip_ids st'.
Proof.
  revert st. induction l as [|t l IH]; intros st E Hbuf Hl.
  - injection E as <-. auto.
  - simpl in E. rewrite fmap_cons, not_elem_of_cons in Hl. destruct Hl as [Hne Hl].
    assert (tid ∉ current_trip_ids st ++ [id t]) as Hnew.
    { rewrite elem_of_app, list_elem_of_singleton. tauto. }
    destruct (rate_step_cases st t) as [[_ Es]|[_ (fuel & _ & Es)]];
      rewrite Es in E; simpl in E;
      destruct (IH _ E) as [Hr Hb]; simpl; try assumption.
    + apply not_elem_of_nil.
    + split; [|exact Hb]. rewrite Hr. simpl. apply assign_all_notin, Hnew.
    + split; [|exact Hb]. exact Hr.
Qed.

(** Every id the loop has met is buffered or has a rate. *)
Lemma rate_loop_covers (l : list trip) (st st' : rate_state) (tid : string) :
  rate_loop st l = Some st' →
  tid ∈ current_trip_ids st ∨ is_Some (rates st !! tid) ∨ tid ∈ id <$> l →
  tid ∈ current_trip_ids st' ∨ is_Some (rates st' !! tid).
Proof.
  revert st. induction l as [|t l IH]; intros st E H.
  - injection E as <-. destruct H as [H|[H|H]]; auto. inversion H.
  - simpl in E.
    assert (tid ∈ current_trip_ids st ++ [id t] ∨ is_Some (rates st !! tid)
            ∨ tid ∈ id <$> l) as H'.
    { rewrite elem_of_app, list_elem_of_singleton.
      rewrite fmap_cons, elem_of_cons in H. tauto. }
    destruct (rate_step_cases st t) as [[_ Es]|[_ (fuel & _ & Es)]];
      rewrite Es in E; simpl in E; apply (IH _ E); simpl; [|exact H'].
    destruct (decide (tid ∈ current_trip_ids st ++ [id t])) as [Hin|Hin].
    + right. left. rewrite assign_all_in by exact Hin. eauto.
    + rewrite assign_all_notin by exact Hin. destruct H' as [H'|H']; [contradiction|].
      right. exact H'.
Qed.

(** The last boundary of a scanned list is unique. *)
Lemma last_boundary_unique (pre1 buf1 pre2 buf2 : list trip) :
  pre1 ++ buf1 = pre2 ++ buf2 →
  boundary pre1 → boundary pre2 →
  (∀ p, p ≠ [] → p `prefix_of` buf1 → ¬ boundary (pre1 ++ p)) →
  (∀ p, p ≠ [] → p `prefix_of` buf2 → ¬ boundary (pre2 ++ p)) →
  pre1 = pre2 ∧ buf1 = buf2.
Proof.
  intros Heq B1 B2 H1 H2.
  apply app_eq_app in Heq as [x [[-> ->]|[-> ->]]].
  - destruct x as [|y x]; [rewrite app_nil_r; auto|].
    exfalso. apply (H2 (y :: x)); [discriminate|eexists; reflexivity|exact B1].
  - destruct x as [|y x]; [rewrite app_nil_r; auto|].
    exfalso. apply (H1 (y :: x)); [discriminate|eexists; reflexivity|exact B2].
Qed.

(** At a boundary the loop variables are those of a fresh scan. *)
Lemma boundary_state (pre : list trip) :
  boundary pre →
  ∃ st, rate_loop rate_init pre = Some st
        ∧ current_trip_ids st = [] ∧ km_in_period st == 0 ∧ fuel_in_period st == 0.
Proof.
  intros B. destruct (scan_invariant pre) as (st & p & buf & E & _ & _ & Hids & Hkm & Hf).
  exists st. split; [exact E|]. unfold boundary, buffer_after in B.
  rewrite E in B. injection B as B. rewrite B in Hids.
  symmetry in Hids. apply fmap_nil_inv in Hids. subst buf.
  repeat split; assumption.
Qed.

(** The state at the end of a closed period, and the rate it wrote. *)
Lemma closed_period_state (pre seg : list trip) :
  closed_period pre seg →
  ∃ st r, rate_loop rate_init (pre ++ seg) = Some st
          ∧ current_trip_ids st = []
          ∧ r == total_fuel seg / total_distance seg * 100
          ∧ ∀ t, t ∈ seg → rates st !! id t = Some r.
Proof.
  intros (B & Hne & Bend & Hmid).
  destruct seg as [|last body _] using rev_ind; [congruence|].
  destruct (scan_invariant (pre ++ body))
    as (st & pre0 & buf & E & Heq & [B0 Hopen] & Hids & Hkm & Hf).
  destruct (last_boundary_unique pre body pre0 buf Heq B B0) as [<- <-]; [|exact Hopen|].
  { intros p Hp [k Hk]. apply Hmid; [exact Hp| |exists (k ++ [last]); rewrite Hk, app_assoc; reflexivity].
    intros Hps. rewrite Hk, <- app_assoc in Hps.
    apply (f_equal length) in Hps. rewrite !length_app in Hps. simpl in Hps. lia. }
  unfold boundary in Bend. rewrite app_assoc, (buffer_after_snoc _ _ _ E) in Bend.
  destruct (rate_step_cases st last) as [[_ Es]|[_ (fuel & _ & Es)]];
    rewrite Es in Bend; simpl in Bend.
  - eexists _, ((fuel_in_period st + fuel_added last)
                / (km_in_period st + distance_km last) * 100).
    rewrite app_assoc, rate_loop_snoc, E. simpl.
    split; [exact Es|]. simpl. split; [reflexivity|]. split.
    + rewrite total_fuel_snoc, total_distance_snoc, Hkm, Hf. reflexivity.
    + intros t Ht. apply assign_all_in. rewrite Hids.
      change [id last] with (id <$> [last]). rewrite <- fmap_app.
      apply list_elem_of_fmap. eauto.
  - destruct (current_trip_ids st); discriminate.
Qed.

Lemma prefix_snoc_inv (p l : list trip) (x : trip) :
  p `prefix_of` l ++ [x] → p = l ++ [x] ∨ p `prefix_of` l.
Proof.
  intros [k Hk]. destruct k as [|y k _] using rev_ind.
  - left. rewrite app_nil_r in Hk. congruence.
  - right. rewrite app_assoc in Hk. apply app_inj_tail in Hk as [Hk _].
    exists k. exact Hk.
Qed.

(** The period of scenario A: after a boundary, a trip without fuel
    and a full-tank refuel with distance behind it. *)
Lemma two_trip_period (pre : list trip) (t1 t2 : trip) :
  boundary pre →
  fuel_liters t1 = None →
  full_refuel t2 → 0 < distance_km t1 + distance_km t2 →
  closed_period pre [t1; t2].
Proof.
  intros B H1 [(f & Ef & Hf) Hfull] Hkm.
  destruct (boundary_state pre B) as (st & E & Hids & Hk & _).
  assert (∃ st1, rate_step st t1 = Some st1
                 ∧ current_trip_ids st1 = [id t1]
                 ∧ km_in_period st1 = km_in_period st + distance_km t1)
    as (st1 & E1 & Hids1 & Hk1).
  { destruct (rate_step_cases st t1) as [[[(g & Eg & _) _] _]|[_ (fuel & _ & Es)]];
      [congruence|].
    eexists. split; [exact Es|]. simpl. rewrite Hids. auto. }
  assert (boundary (pre ++ [t1; t2])) as Bend.
  { unfold boundary. change [t1; t2] with ([t1] ++ [t2]).
    rewrite app_assoc.
    erewrite buffer_after_snoc by (rewrite rate_loop_snoc, E; exact E1).
    destruct (rate_step_cases st1 t2) as [[_ Es]|[G _]]; [rewrite Es; reflexivity|].
    exfalso. apply G. split; [eauto|]. split; [exact Hfull|].
    rewrite Hk1, Hk. lra. }
  split; [exact B|]. split; [discriminate|]. split; [exact Bend|].
  intros p Hp Hneq Hpre Bp.
  apply (prefix_snoc_inv p [t1] t2) in Hpre as [->|Hpre];
    [exfalso; apply Hneq; reflexivity|].
  apply (prefix_snoc_inv p [] t1) in Hpre as [->|[k Hk']].
  - simpl in Bp. unfold boundary in Bp.
    rewrite (buffer_after_snoc _ _ _ E), E1 in Bp.
    simpl in Bp. rewrite Hids1 in Bp. discriminate.
  - destruct p; [congruence|discriminate].
Qed.

(** Buffering one more trip extends the open period. *)
Lemma open_period_snoc (pre buf : list trip) (st : rate_state) (t : trip) :
  open_period pre buf →
  rate_loop rate_init (pre ++ buf) = Some st →
  ¬ closing_guard st t →
  open_period pre (buf ++ [t]).
Proof.
  intros [B Hopen] E G. split; [exact B|].
  intros p Hp Hpre Bp. apply prefix_snoc_inv in Hpre as [->|Hpre].
  - unfold boundary in Bp. rewrite app_assoc, (buffer_after_snoc _ _ _ E) in Bp.
    destruct (rate_step_cases st t) as [[G' _]|[_ (fuel & _ & Es)]]; [contradiction|].
    rewrite Es in Bp. simpl in Bp. destruct (current_trip_ids st); discriminate.
  - exact (Hopen p Hp Hpre Bp).
Qed.

(** A closing trip turns the open period into a closed one. *)
Lemma closed_period_snoc (pre buf : list trip) (st : rate_state) (t : trip) :
  open_period pre buf →
  rate_loop rate_init (pre ++ buf) = Some st →
  closing_guard st t →
  closed_period pre (buf ++ [t]).
Proof.
  intros [B Hopen] E G. split; [exact B|]. split.
  { intros H. apply app_eq_nil in H as [_ H]. discriminate. }
  split.
  - unfold boundary. rewrite app_assoc, (buffer_after_snoc _ _ _ E).
    destruct (rate_step_cases st t) as [[_ Es]|[G' _]]; [|contradiction].
    rewrite Es. reflexivity.
  - intros p Hp Hneq Hpre. apply prefix_snoc_inv in Hpre as [->|Hpre]; [congruence|].
    exact (Hopen p Hp Hpre).
Qed.

(** The periods partition the sequence: closed periods in scan order,
    then the open trailing period (empty when the last trip closes). *)
Lemma periods_partition (trips : list trip) :
  ∃ periods tail,
    trips = concat periods ++ tail
    ∧ open_period (concat periods) tail
    ∧ ∀ k seg, periods !! k = Some seg → closed_period (concat (take k periods)) seg.
Proof.
  induction trips as [|t trips IH] using rev_ind.
  - exists [], []. split; [reflexivity|]. split.
    + split; [apply boundary_nil|]. intros p Hp [k Hk].
      destruct p; [congruence|discriminate].
    + intros k seg Hk. destruct k; discriminate.
  - destruct IH as (periods & tail & -> & Hopen & Hclosed).
    destruct (rate_loop_total (concat periods ++ tail) rate_init) as [st E].
    destruct (rate_step_cases st t) as [[G Es]|[G _]].
    + exists (periods ++ [tail ++ [t]]), [].
      rewrite concat_app. simpl. rewrite !app_nil_r.
      split; [symmetry; apply app_assoc|]. split.
      * split.
        -- unfold boundary. rewrite app_assoc, (buffer_after_snoc _ _ _ E), Es.
           reflexivity.
        -- intros p Hp [k Hk]. destruct p; [congruence|discriminate].
      * intros k seg Hk. apply lookup_app_Some in Hk as [Hk|[Hlen Hk]].
        -- rewrite take_app_le by (apply lookup_lt_Some in Hk; lia).
           apply Hclosed, Hk.
        -- apply list_lookup_singleton_Some in Hk as [Hk <-].
           assert (k = length periods) as -> by lia.
           rewrite take_app_length.
           exact (closed_period_snoc _ _ _ _ Hopen E G).
    + exists periods, (tail ++ [t]). split; [symmetry; apply app_assoc|]. split.
      * exact (open_period_snoc _ _ _ _ Hopen E G).
      * exact Hclosed.
Qed.

End Periods.

(** C2. The rate dictionary covers every trip.  Every trip of a closed
    period has that period's rate, the fuel added over the period (its
    positive [fuel_liters]) divided by the distance of the period, times
    100; every trip of the open trailing period has [tp_consumption].
    In particular two trips of 28 km each, the second with a full-tank
    refuel of 19.6 l, form a period whose trips both have rate 35. *)
Theorem rates_by_period (tp : Q) (trips : list trip) :
  NoDup (id <$> trips) →
  ∃ rs, calc_rates tp trips = Some rs
    ∧ (∀ t, t ∈ trips → is_Some (rs !! id t))
    ∧ (∀ pre seg post, trips = pre ++ seg ++ post → closed_period pre seg →
         ∃ r, r == total_fuel seg / total_distance seg * 100
              ∧ ∀ t, t ∈ seg → rs !! id t = Some r)
    ∧ (∀ pre tail, trips = pre ++ tail → open_period pre tail →
         ∀ t, t ∈ tail → rs !! id t = Some tp)
    ∧ (∀ pre t1 t2 post, trips = pre ++ [t1; t2] ++ post → boundary pre →
         distance_km t1 == 28 → fuel_liters t1 = None →
         distance_km t2 == 28 → (∃ f, fuel_liters t2 = Some f ∧ f == 19.6) →
         full_tank t2 ≠ 0%Z →
         ∃ r, r == 35 ∧ rs !! id t1 = Some r ∧ rs !! id t2 = Some r).
Proof.
  intros Hnd. unfold calc_rates.
  destruct (rate_loop_total trips rate_init) as [stf Ef]. rewrite Ef. simpl.
  eexists. split; [reflexivity|].
  assert (∀ pre seg post, trips = pre ++ seg ++ post → closed_period pre seg →
            ∃ r, r == total_fuel seg / total_distance seg * 100
                 ∧ ∀ t, t ∈ seg →
                     assign_all tp (current_trip_ids stf) (rates stf) !! id t = Some r)
    as Hclosed.
  { intros pre seg post -> Hcp.
    destruct (closed_period_state pre seg Hcp) as (st & r & E & Hids & Hr & Hrates).
    exists r. split; [exact Hr|]. intros t Ht.
    rewrite app_assoc, rate_loop_app, E in Ef. simpl in Ef.
    destruct (rate_loop_frame post st stf (id t) Ef) as [Hsame Hbuf].
    - rewrite Hids. apply not_elem_of_nil.
    - rewrite !fmap_app in Hnd. apply NoDup_app in Hnd as (_ & _ & Hnd).
      apply NoDup_app in Hnd as (_ & Hnd & _). apply Hnd.
      apply list_elem_of_fmap. eauto.
    - rewrite assign_all_notin by exact Hbuf. rewrite Hsame. apply Hrates, Ht. }
  split; [|split; [exact Hclosed|split]].
  - intros t Ht.
    destruct (decide (id t ∈ current_trip_ids stf)) as [Hin|Hin].
    + rewrite assign_all_in by exact Hin. eauto.
    + rewrite assign_all_notin by exact Hin.
      destruct (rate_loop_covers trips rate_init stf (id t) Ef) as [H|H];
        [|contradiction|exact H].
      right. right. apply list_elem_of_fmap. eauto.
  - intros pre tail -> [B Hopen] t Ht.
    destruct (scan_invariant (pre ++ tail))
      as (st & pre0 & buf & E & Heq & [B0 Hopen0] & Hids & _).
    destruct (last_boundary_unique pre tail pre0 buf Heq B B0 Hopen Hopen0) as [<- <-].
    assert (st = stf) as -> by congruence.
    apply assign_all_in. rewrite Hids. apply list_elem_of_fmap. eauto.
  - intros pre t1 t2 post Htrips B Hd1 Hf1 Hd2 (f & Hf2 & Hf) Hfull.
    assert (0 < f) as Hpos by (rewrite Hf; reflexivity).
    destruct (Hclosed pre [t1; t2] post Htrips) as (r & Hr & Hrates).
    { apply two_trip_period; auto.
      - split; [eauto|exact Hfull].
      - rewrite Hd1, Hd2. reflexivity. }
    exists r. split.
    + rewrite Hr. unfold total_fuel, total_distance, fuel_added. simpl.
      rewrite Hf1, Hf2, Hd1, Hd2.
      destruct (Qlt_le_dec 0 f) as [_|Hle]; [|exfalso; exact (Qlt_not_le _ _ Hpos Hle)].
      rewrite Hf. reflexivity.
    + split; apply Hrates; [left|right; left].
Qed.

(** C1 (as amended). After any scanned prefix the buffer holds the trips
    since the last period boundary.  The next trip closes the period
    exactly when it is a full-tank refuel with positive [fuel_liters]
    and the distance of the period, that trip included, is positive;
    closing gives every buffered trip and that trip one rate and leaves
    an empty buffer.  A trip whose [fuel_liters] is absent or not
    positive never closes a period. *)
Theorem period_closes_under_guard (scanned : list trip) (t : trip) :
  ∃ st pre buf,
    rate_loop rate_init scanned = Some st
    ∧ scanned = pre ++ buf ∧ open_period pre buf
    ∧ current_trip_ids st = id <$> buf
    ∧ (closes st t ↔ full_refuel t ∧ 0 < total_distance (buf ++ [t]))
    ∧ (closes st t →
         ∃ st' rate, rate_step st t = Some st'
           ∧ current_trip_ids st' = []
           ∧ km_in_period st' = 0 ∧ fuel_in_period st' = 0
           ∧ ∀ u, u ∈ buf ++ [t] → rates st' !! id u = Some rate)
    ∧ (fuel_liters t = None ∨ (∃ f, fuel_liters t = Some f ∧ f <= 0) →
         ¬ closes st t).
Proof.
  destruct (scan_invariant scanned) as (st & pre & buf & E & Hl & Hopen & Hids & Hkm & _).
  exists st, pre, buf. repeat (split; [assumption|]).
  assert (closes st t ↔ full_refuel t ∧ 0 < total_distance (buf ++ [t])) as Hiff.
  { rewrite closes_iff_guard. unfold closing_guard, full_refuel.
    rewrite total_distance_snoc, Hkm. tauto. }
  split; [exact Hiff|]. split.
  - intros Hc. apply closes_iff_guard in Hc.
    destruct (rate_step_cases st t) as [[_ Es]|[G _]]; [|contradiction].
    eexists _, _. split; [exact Es|]. simpl. repeat split.
    intros u Hu. apply assign_all_in. rewrite Hids.
    change [id t] with (id <$> [t]). rewrite <- fmap_app.
    apply list_elem_of_fmap. eauto.
  - intros Hno Hc. apply Hiff in Hc as [[(f & Ef & Hf) _] _].
    destruct Hno as [Hno|(g & Eg & Hg)]; [congruence|].
    assert (g = f) as -> by congruence. exact (Qlt_not_le _ _ Hf Hg).
Qed.

(** C1 as stated fails: a full-tank refuel with positive [fuel_liters]
    and no distance behind it does not close the period; its fuel is
    carried into the rate of the next refuel (15 instead of 5). *)
Lemma zero_distance_refuel_does_not_close :
  rate_loop rate_init [] = Some rate_init
  ∧ full_refuel zero_km_refuel
  ∧ ¬ closes rate_init zero_km_refuel
  ∧ ∃ rs r, calc_rates 5.1 [zero_km_refuel; next_refuel] = Some rs
            ∧ rs !! id next_refuel = Some r ∧ r == 15.
Proof.
  split; [reflexivity|]. split.
  - split; [|discriminate]. exists 10. split; reflexivity.
  - split.
    + intros (st' & E & H). vm_compute in E. injection E as <-. discriminate H.
    + eexists _, _. split; [reflexivity|]. split; [vm_compute; reflexivity|].
      reflexivity.
Qed.

(** Scenario B, computed: one trip without fuel on a tank of 50 with a
    reference rate of 5.1. *)
Lemma single_open_trip (v : vehicle) (c : calc_data) (t : trip) :
  get_calculated_values v [t] = Some c →
  tank_size_liters v = 50 → tp_consumption v = 5.1 →
  distance_km t = 100 → fuel_liters t = None →
  ∃ rate consumed remaining,
    c_rates c !! id t = Some rate ∧ rate == 5.1
    ∧ c_spotreba c !! id t = Some consumed ∧ consumed == 5.1
    ∧ c_zostatok c !! id t = Some remaining ∧ remaining == 44.9.
Proof.
  intros Ec Hcap Htp Hd Hf. revert Ec.
  unfold get_calculated_values, calc_rates. simpl. unfold rate_step.
  rewrite Hf. simpl. unfold tank_loop, tank_step, refuel. simpl.
  rewrite Hf, Hcap, Htp, Hd, lookup_insert_eq. simpl. intros [= <-]. simpl.
  eexists _, _, _. rewrite !lookup_insert_eq.
  repeat split; reflexivity.
Qed.

(** C3. The level starts at [tank_size]: the level before the first
    trip is the tank size, and before any other trip it is the level
    recorded for the trip before.  Each trip's [spotreba] is
    [distance_km * rate / 100] and is taken off the level.  A positive
    [fuel_liters] with [full_tank] then sets the level to [tank_size]
    whatever the amount, without [full_tank] to
    [min(level + fuel_liters, tank_size)]; the recorded [zostatok] is
    that level clamped into [[0, tank_size]].  For a tank of 50, a
    reference rate of 5.1 and one trip of 100 km without fuel: rate
    5.1, [spotreba] 5.1, [zostatok] 44.9. *)
Theorem tank_level_simulation (v : vehicle) (trips : list trip) :
  NoDup (id <$> trips) →
  ∃ c, get_calculated_values v trips = Some c
    ∧ (∀ pre t post, trips = pre ++ t :: post →
         ∃ before consumed level remaining,
           level_before (tank_size_liters v) (c_zostatok c) pre = Some before
           ∧ consumed
             = distance_km t * default (tp_consumption v) (c_rates c !! id t) / 100
           ∧ c_spotreba c !! id t = Some consumed
           ∧ (full_refuel t → level = tank_size_liters v)
           ∧ (∀ f, fuel_liters t = Some f → 0 < f → full_tank t = 0%Z →
                level == Qmin (before - consumed + f) (tank_size_liters v))
           ∧ (fuel_liters t = None ∨ (∃ f, fuel_liters t = Some f ∧ f <= 0) →
                level = before - consumed)
           ∧ c_zostatok c !! id t = Some remaining
           ∧ remaining == Qmax 0 (Qmin level (tank_size_liters v))
           ∧ (0 <= tank_size_liters v → full_refuel t →
                remaining == tank_size_liters v))
    ∧ (∀ t, trips = [t] → tank_size_liters v = 50 → tp_consumption v = 5.1 →
         distance_km t = 100 → fuel_liters t = None →
         ∃ rate consumed remaining,
           c_rates c !! id t = Some rate ∧ rate == 5.1
           ∧ c_spotreba c !! id t = Some consumed ∧ consumed == 5.1
           ∧ c_zostatok c !! id t = Some remaining ∧ remaining == 44.9).
Proof.
  intros Hnd. destruct (get_calculated_values_total v trips) as [c Ec].
  exists c. split; [exact Ec|].
  split; [|intros t ->; apply (single_open_trip v c t Ec)].
  unfold get_calculated_values in Ec.
  destruct (calc_rates (tp_consumption v) trips) as [rs|]; [|discriminate].
  simpl in Ec. injection Ec as <-. simpl.
  set (tp := tp_consumption v). set (cap := tank_size_liters v).
  assert (∀ pre t post, trips = pre ++ t :: post →
            let st1 := tank_loop rs tp cap (tank_init cap) pre in
            let consumed := distance_km t * default tp (rs !! id t) / 100 in
            level_before cap (zostatok_map (tank_loop rs tp cap (tank_init cap) trips)) pre
            = Some (zostatok st1)
            ∧ spotreba_map (tank_loop rs tp cap (tank_init cap) trips) !! id t
              = Some consumed
            ∧ zostatok_map (tank_loop rs tp cap (tank_init cap) trips) !! id t
              = Some (clamp cap (refuel cap t (zostatok st1 - consumed)))) as Hstep.
  { intros pre t post ->. simpl.
    rewrite fmap_app, fmap_cons in Hnd.
    apply NoDup_app in Hnd as (Hpre & Hsep & Hnd). apply NoDup_cons in Hnd as [Ht Hpost].
    rewrite tank_loop_app.
    pose proof (tank_loop_level rs tp cap pre (tank_init cap)) as Hl.
    set (st1 := tank_loop rs tp cap (tank_init cap) pre) in *.
    change (tank_loop rs tp cap st1 (t :: post))
      with (tank_loop rs tp cap (tank_step rs tp cap st1 t) post).
    destruct (tank_loop_frame rs tp cap post (tank_step rs tp cap st1 t) (id t) Ht)
      as [-> ->].
    destruct (tank_step_records rs tp cap st1 t) as [-> ->].
    split; [|auto]. rewrite <- Hl. unfold level_before.
    destruct (last pre) as [p|] eqn:Elast; [|reflexivity].
    assert (p ∈ pre) as Hp.
    { destruct pre as [|x pre _] using rev_ind; [discriminate|].
      rewrite last_snoc in Elast. injection Elast as ->.
      apply elem_of_app. right. left. }
    assert (id p ∈ id <$> pre) as Hidp by (apply list_elem_of_fmap; eauto).
    destruct (tank_loop_frame rs tp cap post (tank_step rs tp cap st1 t) (id p))
      as [-> _].
    { intros H. apply (Hsep _ Hidp). right. exact H. }
    unfold tank_step. simpl. apply lookup_insert_ne.
    intros H. apply (Hsep _ Hidp). rewrite H. left. }
  intros pre t post Htrips. destruct (Hstep pre t post Htrips) as (Hb & Hs & Hz).
    eexists _, _, _, _. split; [exact Hb|]. split; [reflexivity|]. split; [exact Hs|].
    set (lvl := zostatok (tank_loop rs tp cap (tank_init cap) pre)
                - distance_km t * default tp (rs !! id t) / 100) in *.
    assert (full_refuel t → refuel cap t lvl = cap) as Hfull.
    { intros [(f & Ef & Hf) Hft]. unfold refuel.
      assert (Py.positive (fuel_liters t) = Some f) as -> by (apply positive_Some; auto).
      apply truthy_int_true in Hft. rewrite Hft. reflexivity. }
    split; [exact Hfull|]. split; [|split; [|split; [exact Hz|split]]].
  - intros f Ef Hf Hft. unfold refuel.
      assert (Py.positive (fuel_liters t) = Some f) as -> by (apply positive_Some; auto).
      rewrite Hft. simpl. apply min_Qmin.
  - intros Hno. unfold refuel. apply positive_None in Hno. rewrite Hno. reflexivity.
  - apply clamp_Qmax_Qmin.
  - intros Hcap Hfr. change (clamp cap (refuel cap t lvl) == cap).
      rewrite (Hfull Hfr). apply clamp_id; [exact Hcap|apply Qle_refl].
Qed.

(** ** The comparison *)

Section Comparison.

(** One fixed field is recorded exactly when it is unequal. *)
Lemma compare_fixed_spec (row_num : nat) (e : excel_trip) (d : trip)
    (acc : list fixed_mismatch) (field : string) :
  let m := {| fm_row := row_num; fm_field := field;
              fm_excel := excel_get e field; fm_db := db_get d field |} in
  (fixed_equal (excel_get e field) (db_get d field)
   ∧ compare_fixed row_num e d acc field = acc)
  ∨ (¬ fixed_equal (excel_get e field) (db_get d field)
     ∧ compare_fixed row_num e d acc field = acc ++ [m]).
Proof.
  simpl. unfold compare_fixed, fixed_equal.
  destruct (excel_get e field) as [|s|x] eqn:Ee, (db_get d field) as [|s'|y] eqn:Ed;
    try (right; split; [discriminate|reflexivity]); try (left; tauto).
  - unfold pyval_eqb. destruct (bool_decide (s = s')) eqn:E; cbn [negb].
    + apply bool_decide_eq_true in E. left. split; congruence.
    + apply bool_decide_eq_false in E. right. split; congruence.
  - unfold Py.abs. destruct (Py.ltb 0.01 (Qabs (x - y))) eqn:E.
    + apply ltb_true in E. right. split; [|reflexivity].
      intros H. exact (Qlt_not_le _ _ E H).
    + apply ltb_false in E. left. split; [exact E|reflexivity].
Qed.

Lemma foldl_compare_fixed (row_num : nat) (e : excel_trip) (d : trip)
    (fields : list string) (acc : list fixed_mismatch) (m : fixed_mismatch) :
  m ∈ foldl (compare_fixed row_num e d) acc fields
  ↔ m ∈ acc
    ∨ ∃ field, field ∈ fields
        ∧ m = {| fm_row := row_num; fm_field := field;
                 fm_excel := excel_get e field; fm_db := db_get d field |}
        ∧ ¬ fixed_equal (excel_get e field) (db_get d field).
Proof.
  revert acc. induction fields as [|f fields IH]; intros acc; simpl.
  - split; [auto|]. intros [H|(f & H & _)]; [exact H|inversion H].
  - rewrite IH. destruct (compare_fixed_spec row_num e d acc f) as [[Heq ->]|[Hne ->]].
    + split.
      * intros [H|(g & Hg & Hm & Hn)]; [auto|]. right. exists g.
        split; [right; exact Hg|auto].
      * intros [H|(g & Hg & Hm & Hn)]; [auto|].
        apply elem_of_cons in Hg as [->|Hg]; [contradiction|]. right. eauto.
    + rewrite elem_of_app, list_elem_of_singleton. split.
      * intros [[H|H]|(g & Hg & Hm & Hn)]; [auto| |].
        -- right. exists f. split; [left|auto].
        -- right. exists g. split; [right; exact Hg|auto].
      * intros [H|(g & Hg & Hm & Hn)]; [auto|].
        apply elem_of_cons in Hg as [->|Hg]; [auto|]. right. eauto.
Qed.

(** One derived field is recorded exactly when both sides provide it
    and it is out of tolerance. *)
Lemma compare_calc_spec (row_num : nat) (field : string) (tol : Q)
    (excel_v calc_v : option Q) (acc : list calc_mismatch) (m : calc_mismatch) :
  m ∈ compare_calc row_num field tol excel_v calc_v acc
  ↔ m ∈ acc
    ∨ ∃ ev cv, excel_v = Some ev ∧ calc_v = Some cv ∧ tol < Qabs (ev - cv)
        ∧ m = {| cm_row := row_num; cm_field := field; cm_excel := ev;
                 cm_calculated := cv; cm_diff := Qabs (ev - cv) |}.
Proof.
  unfold compare_calc, Py.abs.
  destruct excel_v as [ev|], calc_v as [cv|];
    try (split; [auto|intros [H|(? & ? & ? & ? & _)]; [exact H|discriminate]]).
  destruct (Py.ltb tol (Qabs (ev - cv))) eqn:E.
  - apply ltb_true in E. rewrite elem_of_app, list_elem_of_singleton. split.
    + intros [H|H]; [auto|]. right. eauto 10.
    + intros [H|(? & ? & [= <-] & [= <-] & _ & H)]; auto.
  - apply ltb_false in E. split; [auto|].
    intros [H|(? & ? & [= <-] & [= <-] & H & _)]; [exact H|].
    exfalso. exact (Qlt_not_le _ _ H E).
Qed.

Lemma compare_row_fixed (calc : calc_data) (i : nat) (e : excel_trip) (d : trip)
    (res : result) (m : fixed_mismatch) :
  m ∈ fixed_mismatches (compare_row calc i e d res)
  ↔ m ∈ fixed_mismatches res ∨ fixed_row_mismatch (i + 1) e d m.
Proof. exact (foldl_compare_fixed (i + 1) e d fixed_fields _ m). Qed.

Lemma compare_row_calc (calc : calc_data) (i : nat) (e : excel_trip) (d : trip)
    (res : result) (m : calc_mismatch) :
  m ∈ calc_mismatches (compare_row calc i e d res)
  ↔ m ∈ calc_mismatches res ∨ derived_row_mismatch calc (i + 1) e d m.
Proof.
  unfold compare_row, derived_row_mismatch, derived_fields.
  cbn [calc_mismatches]. rewrite !compare_calc_spec. split.
  - intros [[[H|H]|H]|H]; [auto| | |]; right;
      destruct H as (ev & cv & He & Hc & Ht & ->);
      eexists _, _, ev, cv; (split; [|split; [exact Ht|reflexivity]]);
      rewrite <- He, <- Hc.
    + left.
    + right. left.
    + right. right. left.
  - intros [H|(f & tol & ev & cv & Hin & Ht & ->)]; [auto|].
    rewrite !elem_of_cons in Hin.
    destruct Hin as [[= -> -> He Hc]|[[= -> -> He Hc]|[[= -> -> He Hc]|Hin]]];
      [| | |inversion Hin].
    + left. left. right. eauto 10.
    + left. right. eauto 10.
    + right. eauto 10.
Qed.

Lemma compare_row_header (calc : calc_data) (i : nat) (e : excel_trip) (d : trip)
    (res : result) :
  year (compare_row calc i e d res) = year res
  ∧ excel_count (compare_row calc i e d res) = excel_count res
  ∧ db_count (compare_row calc i e d res) = db_count res
  ∧ count_mismatch (compare_row calc i e d res) = count_mismatch res.
Proof. unfold compare_row. cbn. auto. Qed.

(** The loop records the mismatches of every zipped row: nothing
    stops it early. *)
Lemma compare_rows_spec (calc : calc_data) (es : list excel_trip) (ds : list trip)
    (i : nat) (res : result) :
  let res' := compare_rows calc i es ds res in
  (∀ m, m ∈ fixed_mismatches res'
        ↔ m ∈ fixed_mismatches res
          ∨ ∃ k e d, es !! k = Some e ∧ ds !! k = Some d
              ∧ fixed_row_mismatch (i + k + 1) e d m)
  ∧ (∀ m, m ∈ calc_mismatches res'
          ↔ m ∈ calc_mismatches res
            ∨ ∃ k e d, es !! k = Some e ∧ ds !! k = Some d
                ∧ derived_row_mismatch calc (i + k + 1) e d m)
  ∧ year res' = year res ∧ excel_count res' = excel_count res
  ∧ db_count res' = db_count res ∧ count_mismatch res' = count_mismatch res.
Proof.
  revert ds i res. induction es as [|e es IH]; intros ds i res; simpl.
  - repeat split; auto; intros [H|(k & e & d & H & _)]; auto; discriminate.
  - destruct ds as [|d ds].
    + repeat split; auto; intros [H|(k & e' & d & _ & H & _)]; auto; discriminate.
    + destruct (IH ds (S i) (compare_row calc i e d res))
        as (Hf & Hc & Hy & He & Hd & Hm).
      destruct (compare_row_header calc i e d res) as (Hy' & He' & Hd' & Hm').
      split; [|split; [|repeat split; congruence]].
      * intros m. rewrite Hf, compare_row_fixed. split.
        -- intros [[H|H]|(k & e' & d' & H1 & H2 & H3)]; [auto| |].
           ++ right. exists 0%nat, e, d. rewrite Nat.add_0_r. auto.
           ++ right. exists (S k), e', d'.
              replace (i + S k + 1)%nat with (S i + k + 1)%nat by lia. auto.
        -- intros [H|(k & e' & d' & H1 & H2 & H3)]; [auto|].
           destruct k as [|k]; simpl in H1, H2.
           ++ injection H1 as <-. injection H2 as <-.
              rewrite Nat.add_0_r in H3. auto.
           ++ right. exists k, e', d'.
              replace (S i + k + 1)%nat with (i + S k + 1)%nat by lia. auto.
      * intros m. rewrite Hc, compare_row_calc. split.
        -- intros [[H|H]|(k & e' & d' & H1 & H2 & H3)]; [auto| |].
           ++ right. exists 0%nat, e, d. rewrite Nat.add_0_r. auto.
           ++ right. exists (S k), e', d'.
              replace (i + S k + 1)%nat with (S i + k + 1)%nat by lia. auto.
        -- intros [H|(k & e' & d' & H1 & H2 & H3)]; [auto|].
           destruct k as [|k]; simpl in H1, H2.
           ++ injection H1 as <-. injection H2 as <-.
              rewrite Nat.add_0_r in H3. auto.
           ++ right. exists k, e', d'.
              replace (S i + k + 1)%nat with (i + S k + 1)%nat by lia. auto.
Qed.

Lemma compare_year_equal_lengths (yr : string) (es : list excel_trip)
    (v : vehicle) (ds : list trip) :
  length es = length ds →
  ∃ calc, get_calculated_values v ds = Some calc
    ∧ compare_year yr es v ds
      = Some (compare_rows calc 0 es ds
                {| year := yr; excel_count := length es; db_count := length ds;
                   fixed_mismatches := []; calc_mismatches := [];
                   count_mismatch := None |}).
Proof.
  intros Hlen. unfold compare_year.
  destruct (get_calculated_values_total v ds) as [calc ->]. simpl.
  exists calc. split; [reflexivity|].
  rewrite Hlen, Nat.eqb_refl. reflexivity.
Qed.

End Comparison.

(** C6. When the two sequences differ in length the report carries the
    two counts, [count_mismatch = True] and two empty mismatch lists: no
    row is compared.  So it is for 70 reference rows against 69. *)
Theorem count_mismatch_aborts (yr : string) (excel_data : list excel_trip)
    (v : vehicle) (db_data : list trip) :
  length excel_data ≠ length db_data →
  ∃ res, compare_year yr excel_data v db_data = Some res
    ∧ res = {| year := yr; excel_count := length excel_data;
               db_count := length db_data; fixed_mismatches := [];
               calc_mismatches := []; count_mismatch := Some true |}
    ∧ (length excel_data = 70%nat → length db_data = 69%nat →
         excel_count res = 70%nat ∧ db_count res = 69%nat
         ∧ count_mismatch res = Some true
         ∧ fixed_mismatches res = [] ∧ calc_mismatches res = []).
Proof.
  intros Hlen. unfold compare_year.
  destruct (get_calculated_values_total v db_data) as [calc ->]. simpl.
  apply Nat.eqb_neq in Hlen. rewrite Hlen. simpl.
  eexists. split; [reflexivity|]. split; [reflexivity|].
  intros -> ->. simpl. auto.
Qed.

(** C7. For sequences of equal length the report has no
    [count_mismatch], and its fixed mismatches are exactly the records
    (row [i + 1], field, reference value, computed value) of the fixed
    fields that are unequal at position [i]: unequal unless both are
    absent, or both are numbers no more than 0.01 apart, or, in any other
    case, the same value.  A reference distance of 55.0 against 55.004
    is not recorded; against 55.02 it is. *)
Theorem fixed_fields_compared (yr : string) (excel_data : list excel_trip)
    (v : vehicle) (db_data : list trip) :
  length excel_data = length db_data →
  ∃ res, compare_year yr excel_data v db_data = Some res
    ∧ count_mismatch res = None
    ∧ (∀ m, m ∈ fixed_mismatches res
            ↔ ∃ i e d, excel_data !! i = Some e ∧ db_data !! i = Some d
                ∧ fixed_row_mismatch (i + 1) e d m)
    ∧ (∀ i e d, excel_data !! i = Some e → db_data !! i = Some d →
         e_distance_km e = 55.0 →
         (distance_km d = 55.004 →
            ∀ m, m ∈ fixed_mismatches res →
                 ¬ (fm_row m = (i + 1)%nat ∧ fm_field m = "distance_km"))
         ∧ (distance_km d = 55.02 →
              {| fm_row := (i + 1)%nat; fm_field := "distance_km";
                 fm_excel := PFloat 55.0; fm_db := PFloat 55.02 |}
              ∈ fixed_mismatches res)).
Proof.
  intros Hlen.
  destruct (compare_year_equal_lengths yr _ v _ Hlen) as (calc & _ & ->).
  eexists. split; [reflexivity|].
  match goal with |- context [compare_rows calc 0 ?es ?ds ?r] =>
    destruct (compare_rows_spec calc es ds 0 r) as (Hf & _ & _ & _ & _ & Hm)
  end.
  split; [exact Hm|].
  assert (∀ m, m ∈ fixed_mismatches
                     (compare_rows calc 0 excel_data db_data
                        {| year := yr; excel_count := length excel_data;
                           db_count := length db_data; fixed_mismatches := [];
                           calc_mismatches := []; count_mismatch := None |})
            ↔ ∃ i e d, excel_data !! i = Some e ∧ db_data !! i = Some d
                ∧ fixed_row_mismatch (i + 1) e d m) as Hiff.
  { intros m. rewrite Hf. simpl. split.
    - intros [H|H]; [inversion H|exact H].
    - intros H. right. exact H. }
  split; [exact Hiff|].
  intros i e d He Hd Hdist. split.
  - intros Hdb m Hin [Hrow Hfield].
    apply Hiff in Hin as (j & e' & d' & He' & Hd' & (f & _ & -> & Hne)).
    simpl in Hrow, Hfield. assert (j = i) as -> by lia. subst f.
    assert (e' = e) as -> by congruence. assert (d' = d) as -> by congruence.
    apply Hne. change (Qabs (e_distance_km e - distance_km d) <= 0.01).
    rewrite Hdist, Hdb. vm_compute. discriminate.
  - intros Hdb. apply Hiff. exists i, e, d. split; [exact He|]. split; [exact Hd|].
    exists "distance_km". split; [|split].
    + unfold fixed_fields. do 3 right. left.
    + change (excel_get e "distance_km") with (PFloat (e_distance_km e)).
      change (db_get d "distance_km") with (PFloat (distance_km d)).
      rewrite Hdist, Hdb. reflexivity.
    + change (¬ Qabs (e_distance_km e - distance_km d) <= 0.01).
      rewrite Hdist, Hdb. vm_compute. intros H. apply H. reflexivity.
Qed.

(** C8. For sequences of equal length the comparison returns without an
    error, and its derived mismatches are exactly the records (row
    [i + 1], field, reference value, calculated value, absolute
    difference) of the derived fields at position [i] that both sides
    provide and whose absolute difference exceeds the tolerance: 0.05
    for [consumption_rate], 0.1 for [spotreba], 0.5 for [zostatok].  A
    value absent on either side is never recorded. *)
Theorem derived_fields_compared (yr : string) (excel_data : list excel_trip)
    (v : vehicle) (db_data : list trip) :
  length excel_data = length db_data →
  ∃ calc res, get_calculated_values v db_data = Some calc
    ∧ compare_year yr excel_data v db_data = Some res
    ∧ (∀ m, m ∈ calc_mismatches res
            ↔ ∃ i e d, excel_data !! i = Some e ∧ db_data !! i = Some d
                ∧ derived_row_mismatch calc (i + 1) e d m).
Proof.
  intros Hlen.
  destruct (compare_year_equal_lengths yr _ v _ Hlen) as (calc & Ec & ->).
  eexists calc, _. split; [exact Ec|]. split; [reflexivity|].
  match goal with |- context [compare_rows calc 0 ?es ?ds ?r] =>
    destruct (compare_rows_spec calc es ds 0 r) as (_ & Hc & _)
  end.
  intros m. rewrite Hc. simpl. split.
  - intros [H|H]; [inversion H|exact H].
  - intros H. right. exact H.
Qed.

(** ** The import *)

Section ImportPipeline.

Import ImportExcel.

Variable num_str : Q → string.
Variable str_num : string → option Q.
Variable sql_year : string → option string.

Lemma make_trip_fields (vid now trip_id : string) (len_df imported : nat)
    (date_val : cell) (row : list cell) (t : trip) :
  make_trip num_str str_num vid now trip_id len_df imported date_val row = Some t →
  id t = trip_id ∧ vehicle_id t = vid ∧ full_tank t = 1%Z
  ∧ sort_order t = (Z.of_nat len_df - 3 - Z.of_nat imported - 1)%Z.
Proof.
  unfold make_trip. intros H.
  repeat match type of H with
         | (?o ≫= _) = Some _ => destruct o; simpl in H; [|discriminate]
         end.
  injection H as <-. simpl. auto.
Qed.

(** The second loop appends its rows to the table: the [k]-th row it
    inserts has the [k]-th identifier, [full_tank = 1] and the key
    [len(df) - 3 - k - 1], and no identifier is inserted twice. *)
Lemma insert_rows_spec (vid now : string) (uuids : nat → string) (len_df : nat)
    (rows : list (list cell)) (imported : nat) (table : list trip)
    (imported' : nat) (table' : list trip) :
  insert_rows num_str str_num vid now uuids len_df rows imported table
  = Some (imported', table') →
  ∃ new, table' = table ++ new
    ∧ imported' = (imported + length new)%nat
    ∧ (length new ≤ length rows)%nat
    ∧ (∀ k t, new !! k = Some t →
         id t = uuids (imported + k)%nat ∧ vehicle_id t = vid
         ∧ full_tank t = 1%Z
         ∧ sort_order t
           = (Z.of_nat len_df - 3 - Z.of_nat (imported + k) - 1)%Z)
    ∧ (NoDup (id <$> table) → NoDup (id <$> table')).
Proof.
  revert imported table. induction rows as [|row rows IH]; intros imported table H.
  - simpl in H. injection H as <- <-. exists []. rewrite app_nil_r. simpl.
    split; [reflexivity|]. split; [lia|]. split; [lia|]. split; [|auto].
    intros k t Hk. discriminate.
  - simpl in H. destruct (row !! 0%nat) as [date_val|]; simpl in H; [|discriminate].
    destruct (skipped num_str date_val).
    + destruct (IH _ _ H) as (new & -> & -> & Hlen & Hnew & Hnd).
      exists new. simpl.
      split; [reflexivity|]. split; [reflexivity|]. split; [lia|]. split; assumption.
    + destruct (make_trip num_str str_num vid now (uuids imported) len_df imported
                  date_val row) as [t|] eqn:Et; simpl in H; [|discriminate].
      case_bool_decide as Hdup; [discriminate|].
      destruct (IH _ _ H) as (new & -> & -> & Hlen & Hnew & Hnd).
      apply make_trip_fields in Et as (Hid & Hv & Hft & Hso).
      exists (t :: new). rewrite <- app_assoc. simpl.
      split; [reflexivity|]. split; [lia|]. split; [lia|]. split.
      * intros [|k] u Hk; simpl in Hk.
        -- injection Hk as <-. rewrite Nat.add_0_r. auto.
        -- replace (imported + S k)%nat with (S imported + k)%nat by lia.
           apply Hnew, Hk.
      * intros Hn. change (t :: new) with ([t] ++ new). rewrite app_assoc.
        apply Hnd. rewrite fmap_app. apply NoDup_app. split; [exact Hn|].
        split; [|apply NoDup_singleton].
        intros x Hx Hx'. apply list_elem_of_singleton in Hx'. simpl in Hx'.
        subst x. contradiction.
Qed.

(** What [main] leaves in the [trips] table when it commits. *)
Lemma main_committed (df : list (list cell)) (uuids : nat → string)
    (now : string) (db : database) (table' : list trip) :
  main num_str str_num sql_year df uuids now db = Committed table' →
  ∃ v vs import_year new,
    db_vehicles db = v :: vs
    ∧ first_pass num_str (drop 3 df) = Some (Some import_year)
    ∧ import_year ≠ ""
    ∧ table' = filter (λ t, negb (deleted sql_year (v_id v) import_year t))
                 (db_trips db) ++ new
    ∧ (length new ≤ length df - 3)%nat
    ∧ (∀ k t, new !! k = Some t →
         id t = uuids k ∧ vehicle_id t = v_id v ∧ full_tank t = 1%Z
         ∧ sort_order t = (Z.of_nat (length df) - 3 - Z.of_nat k - 1)%Z)
    ∧ (NoDup (id <$> db_trips db) → NoDup (id <$> table')).
Proof.
  unfold main. intros H.
  destruct (db_vehicles db) as [|v vs]; [discriminate|].
  destruct (first_pass num_str (drop 3 df)) as [[y|]|]; try discriminate.
  case_bool_decide as Hy; [discriminate|].
  destruct (insert_rows _ _ _ _ _ _ _ _ _) as [[k table'']|] eqn:E; [|discriminate].
  injection H as <-.
  apply insert_rows_spec in E as (new & -> & _ & Hlen & Hnew & Hnd).
  exists v, vs, y, new. rewrite length_drop in Hlen.
  split; [reflexivity|]. split; [reflexivity|]. split; [exact Hy|].
  split; [reflexivity|]. split; [exact Hlen|]. split; [exact Hnew|].
  intros Hn. apply Hnd. apply NoDup_fmap_2_strong; [|apply NoDup_filter].
  - intros a b Ha Hb Hab. apply list_elem_of_filter in Ha as [_ Ha].
    apply list_elem_of_filter in Hb as [_ Hb].
    clear -Hn Ha Hb Hab. induction (db_trips db) as [|x l IHl]; [inversion Ha|].
    rewrite fmap_cons in Hn. apply NoDup_cons in Hn as [Hx Hn].
    apply elem_of_cons in Ha as [->|Ha]; apply elem_of_cons in Hb as [->|Hb]; auto.
    + exfalso. apply Hx. rewrite Hab. apply list_elem_of_fmap. eauto.
    + exfalso. apply Hx. rewrite <- Hab. apply list_elem_of_fmap. eauto.
  - clear -Hn. induction (db_trips db) as [|x l IHl]; [constructor|].
    rewrite fmap_cons in Hn. apply NoDup_cons in Hn as [Hx Hn].
    apply NoDup_cons. split; [|auto]. intros Hin. apply Hx.
    apply list_elem_of_fmap. eauto.
Qed.

(** The import walks the sheet oldest first and hands out strictly
    descending keys, one per inserted row: the row inserted last has
    the smallest key. *)
Lemma import_sort_order_descending (df : list (list cell)) (uuids : nat → string)
    (now : string) (db : database) (table' : list trip) :
  main num_str str_num sql_year df uuids now db = Committed table' →
  ∃ kept new, table' = kept ++ new
    ∧ (∀ k t, new !! k = Some t →
         sort_order t = (Z.of_nat (length df) - 4 - Z.of_nat k)%Z)
    ∧ (∀ j k tj tk, new !! j = Some tj → new !! k = Some tk → (j < k)%nat →
         (sort_order tk < sort_order tj)%Z).
Proof.
  intros H. apply main_committed in H
    as (v & vs & y & new & _ & _ & _ & -> & _ & Hnew & _).
  eexists _, new. split; [reflexivity|]. split.
  - intros k t Hk. destruct (Hnew k t Hk) as (_ & _ & _ & ->). lia.
  - intros j k tj tk Hj Hk Hlt.
    destruct (Hnew j tj Hj) as (_ & _ & _ & ->).
    destruct (Hnew k tk Hk) as (_ & _ & _ & ->). lia.
Qed.

End ImportPipeline.

(** C9. Whatever way a run of the import ends, a stored trip whose year
    is not the target year is still in the table afterwards, the only
    trips missing are those of the vehicle and the target year, and
    identifiers stay unique, so no stored row is overwritten.  With no
    vehicle, or with no row giving a year, the run exits with an error
    and the table is unchanged. *)
Theorem import_is_year_scoped (num_str : Q → string) (str_num : string → option Q)
    (sql_year : string → option string) (df : list (list ImportExcel.cell))
    (uuids : nat → string) (now : string) (db : ImportExcel.database)
    (o : ImportExcel.outcome) :
  ImportExcel.main num_str str_num sql_year df uuids now db = o →
  (∀ y t, ImportExcel.first_pass num_str (drop 3 df) = Some (Some y) →
     t ∈ ImportExcel.db_trips db → sql_year (date t) ≠ Some y →
     t ∈ ImportExcel.trips_after o db)
  ∧ (∀ t, t ∈ ImportExcel.db_trips db → t ∉ ImportExcel.trips_after o db →
       ∃ v vs y, ImportExcel.db_vehicles db = v :: vs
         ∧ ImportExcel.first_pass num_str (drop 3 df) = Some (Some y)
         ∧ y ≠ "" ∧ vehicle_id t = v_id v ∧ sql_year (date t) = Some y)
  ∧ (NoDup (id <$> ImportExcel.db_trips db) →
       NoDup (id <$> ImportExcel.trips_after o db))
  ∧ (ImportExcel.db_vehicles db = []
     ∨ ImportExcel.first_pass num_str (drop 3 df) = Some None
     ∨ ImportExcel.first_pass num_str (drop 3 df) = Some (Some "") →
       (∃ msg, o = ImportExcel.Exit msg)
       ∧ ImportExcel.trips_after o db = ImportExcel.db_trips db).
Proof.
  intros Ho.
  assert (∀ t, t ∈ ImportExcel.db_trips db → t ∉ ImportExcel.trips_after o db →
            ∃ v vs y, ImportExcel.db_vehicles db = v :: vs
              ∧ ImportExcel.first_pass num_str (drop 3 df) = Some (Some y)
              ∧ y ≠ "" ∧ vehicle_id t = v_id v ∧ sql_year (date t) = Some y) as Hgone.
  { intros t Hin Hout. destruct o as [msg| |table']; try contradiction.
    apply main_committed in Ho as (v & vs & y & new & Hv & Hy & Hne & -> & _).
    exists v, vs, y. repeat (split; [assumption|]). simpl in Hout.
    destruct (ImportExcel.deleted sql_year (v_id v) y t) eqn:Ed.
    - unfold ImportExcel.deleted in Ed. apply andb_true_iff in Ed as [E1 E2].
      apply bool_decide_eq_true in E1, E2. auto.
    - exfalso. apply Hout. apply elem_of_app. left.
      apply list_elem_of_filter. split; [rewrite Ed; exact I|exact Hin]. }
  split; [|split; [exact Hgone|split]].
  - intros y t Hy Hin Hyear. destruct o as [msg| |table']; try exact Hin.
    apply main_committed in Ho as (v & vs & y' & new & _ & Hy' & _ & -> & _).
    assert (y' = y) as -> by congruence.
    apply elem_of_app. left. apply list_elem_of_filter. split; [|exact Hin].
    unfold ImportExcel.deleted. rewrite (bool_decide_eq_false_2 (sql_year _ = _) Hyear).
    rewrite andb_false_r. exact I.
  - intros Hnd. destruct o as [msg| |table']; try exact Hnd.
    apply main_committed in Ho as (v & vs & y & new & _ & _ & _ & _ & _ & _ & H).
    apply H, Hnd.
  - intros Hno. unfold ImportExcel.main in Ho.
    destruct (ImportExcel.db_vehicles db) as [|v vs].
    + subst o. eauto.
    + destruct Hno as [Hno|[Hno|Hno]]; [discriminate| |]; rewrite Hno in Ho.
      * subst o. eauto.
      * rewrite bool_decide_eq_true_2 in Ho by reflexivity. subst o. eauto.
Qed.

(** C10 (as amended). Every trip the import inserts has
    [full_tank = 1], whether or not its row records fuel.  So an
    inserted trip with positive [fuel_liters] closes the fuel period
    exactly when the distance of the period, that trip included, is
    positive. *)
Theorem imported_trips_full_tank (num_str : Q → string)
    (str_num : string → option Q) (sql_year : string → option string)
    (df : list (list ImportExcel.cell)) (uuids : nat → string) (now : string)
    (db : ImportExcel.database) (table' : list trip) :
  ImportExcel.main num_str str_num sql_year df uuids now db
  = ImportExcel.Committed table' →
  ∃ kept new, table' = kept ++ new
    ∧ (∀ t, t ∈ kept → t ∈ ImportExcel.db_trips db)
    ∧ (∀ t, t ∈ new → full_tank t = 1%Z)
    ∧ (∀ t st, t ∈ new → (∃ f, fuel_liters t = Some f ∧ 0 < f) →
         (closes st t ↔ 0 < km_in_period st + distance_km t)).
Proof.
  intros H. apply main_committed in H
    as (v & vs & y & new & _ & _ & _ & -> & _ & Hnew & _).
  eexists _, new. split; [reflexivity|].
  assert (∀ t, t ∈ new → full_tank t = 1%Z) as Hfull.
  { intros t Hin. apply list_elem_of_lookup in Hin as [k Hk].
    destruct (Hnew k t Hk) as (_ & _ & Hft & _). exact Hft. }
  split; [|split; [exact Hfull|]].
  - intros t Hin. apply list_elem_of_filter in Hin as [_ Hin]. exact Hin.
  - intros t st Hin Hfuel. rewrite closes_iff_guard. unfold closing_guard.
    rewrite (Hfull t Hin). split; [tauto|]. intros Hkm.
    split; [exact Hfuel|]. split; [discriminate|exact Hkm].
Qed.

(** C10 as stated fails: the import of a sheet whose only row is a
    refuel of 10 l without a distance inserts a trip with
    [full_tank = 1] and positive [fuel_liters] that closes no period. *)
Lemma imported_refuel_without_distance_stays_open :
  ∃ kept t,
    ImportExcel.main sample_num_str sample_str_num sample_sql_year zero_km_sheet
      sample_uuids "now" sample_db
    = ImportExcel.Committed (kept ++ [t])
    ∧ full_tank t = 1%Z ∧ fuel_liters t = Some 10 ∧ 0 < 10
    ∧ ¬ closes rate_init t
    ∧ buffer_after [t] = Some [id t].
Proof.
  eexists [_], _. split; [vm_compute; reflexivity|].
  split; [reflexivity|]. split; [reflexivity|]. split; [reflexivity|]. split.
  - intros (st' & E & Hb). vm_compute in E. injection E as <-. discriminate Hb.
  - vm_compute. reflexivity.
Qed.

(** C5, on [create_db]: the showcase trips, listed oldest first, carry
    the keys 0 to 17 in ascending order, so the oldest trip has the
    smallest key and the newest the largest. *)
Theorem showcase_sort_order_ascending (vid now : string) (uuids : nat → string) :
  (λ t, (date t, sort_order t)) <$> Showcase.create_db vid now uuids
  = [ ("2024-01-03", 0%Z); ("2024-01-03", 1%Z); ("2024-01-08", 2%Z);
      ("2024-01-08", 3%Z); ("2024-01-15", 4%Z); ("2024-01-15", 5%Z);
      ("2024-02-05", 6%Z); ("2024-02-05", 7%Z); ("2024-02-12", 8%Z);
      ("2024-02-12", 9%Z); ("2024-02-20", 10%Z); ("2024-02-20", 11%Z);
      ("2024-03-04", 12%Z); ("2024-03-04", 13%Z); ("2024-03-11", 14%Z);
      ("2024-03-11", 15%Z); ("2024-03-18", 16%Z); ("2024-03-18", 17%Z) ].
Proof. reflexivity. Qed.

(** * Instances on concrete inputs *)

Lemma rates_by_period_witness :
  NoDup (id <$> [sample_trip "a" 28 None 1; sample_trip "b" 28 (Some 19.6) 1;
                 sample_trip "c" 100 None 1])
  ∧ ∃ rs r,
      calc_rates 5.1 [sample_trip "a" 28 None 1; sample_trip "b" 28 (Some 19.6) 1;
                      sample_trip "c" 100 None 1] = Some rs
      ∧ r == 35 ∧ rs !! "a" = Some r ∧ rs !! "b" = Some r.
Proof.
  assert (NoDup (id <$> [sample_trip "a" 28 None 1; sample_trip "b" 28 (Some 19.6) 1;
                         sample_trip "c" 100 None 1])) as Hnd.
  { apply (bool_decide_unpack _). vm_compute. exact I. }
  split; [exact Hnd|].
  destruct (rates_by_period 5.1 _ Hnd) as (rs & E & _ & _ & _ & Hscen).
  destruct (Hscen [] (sample_trip "a" 28 None 1) (sample_trip "b" 28 (Some 19.6) 1)
              [sample_trip "c" 100 None 1]) as (r & Hr & Ha & Hb);
    try reflexivity; try discriminate.
  - exists 19.6. split; reflexivity.
  - exists rs, r. auto.
Defined.

Lemma tank_level_simulation_witness :
  NoDup (id <$> [sample_trip "a" 100 None 1])
  ∧ ∃ c remaining,
      get_calculated_values sample_vehicle [sample_trip "a" 100 None 1] = Some c
      ∧ c_zostatok c !! "a" = Some remaining ∧ remaining == 44.9.
Proof.
  assert (NoDup (id <$> [sample_trip "a" 100 None 1])) as Hnd.
  { apply (bool_decide_unpack _). vm_compute. exact I. }
  split; [exact Hnd|].
  destruct (tank_level_simulation sample_vehicle _ Hnd) as (c & E & _ & Hscen).
  destruct (Hscen (sample_trip "a" 100 None 1))
    as (rate & consumed & remaining & _ & _ & _ & _ & Hz & Hr); try reflexivity.
  exists c, remaining. auto.
Defined.

Lemma fuel_remaining_within_tank_witness :
  0 <= tank_size_liters sample_vehicle
  ∧ ∃ c,
      get_calculated_values sample_vehicle
        [sample_trip "a" 2000 None 1; sample_trip "b" 10 (Some 80) 0] = Some c
      ∧ ∀ tid z, c_zostatok c !! tid = Some z → 0 <= z ∧ z <= 50.
Proof.
  assert (0 <= tank_size_liters sample_vehicle) as Hcap by (vm_compute; discriminate).
  split; [exact Hcap|].
  destruct (fuel_remaining_within_tank sample_vehicle
              [sample_trip "a" 2000 None 1; sample_trip "b" 10 (Some 80) 0] Hcap)
    as (c & E & _ & Hrange).
  exists c. split; [exact E|exact Hrange].
Defined.

Lemma count_mismatch_aborts_witness :
  length (replicate 70 (sample_excel_trip 55)) ≠ length (replicate 69 zero_km_refuel)
  ∧ ∃ res,
      compare_year "2024" (replicate 70 (sample_excel_trip 55)) sample_vehicle
        (replicate 69 zero_km_refuel) = Some res
      ∧ excel_count res = 70%nat ∧ db_count res = 69%nat
      ∧ count_mismatch res = Some true
      ∧ fixed_mismatches res = [] ∧ calc_mismatches res = [].
Proof.
  assert (length (replicate 70 (sample_excel_trip 55))
          ≠ length (replicate 69 zero_km_refuel)) as Hlen.
  { rewrite !length_replicate. lia. }
  split; [exact Hlen|].
  destruct (count_mismatch_aborts "2024" _ sample_vehicle _ Hlen) as (res & E & _ & H).
  exists res. split; [exact E|]. apply H; apply length_replicate.
Defined.

Lemma fixed_fields_compared_witness :
  length [sample_excel_trip 55.0] = length [sample_trip "a" 55.02 None 1]
  ∧ ∃ res,
      compare_year "2024" [sample_excel_trip 55.0] sample_vehicle
        [sample_trip "a" 55.02 None 1] = Some res
      ∧ {| fm_row := 1; fm_field := "distance_km";
           fm_excel := PFloat 55.0; fm_db := PFloat 55.02 |}
        ∈ fixed_mismatches res.
Proof.
  split; [reflexivity|].
  destruct (fixed_fields_compared "2024" [sample_excel_trip 55.0] sample_vehicle
              [sample_trip "a" 55.02 None 1] eq_refl) as (res & E & _ & _ & Hscen).
  exists res. split; [exact E|].
  destruct (Hscen 0%nat (sample_excel_trip 55.0) (sample_trip "a" 55.02 None 1)
              eq_refl eq_refl eq_refl) as [_ H].
  exact (H eq_refl).
Defined.

Lemma derived_fields_compared_witness :
  length [sample_excel_trip 55.0] = length [sample_trip "a" 55 None 1]
  ∧ ∃ calc res,
      get_calculated_values sample_vehicle [sample_trip "a" 55 None 1] = Some calc
      ∧ compare_year "2024" [sample_excel_trip 55.0] sample_vehicle
          [sample_trip "a" 55 None 1] = Some res
      ∧ ∀ m, m ∈ calc_mismatches res
             ↔ ∃ i e d, [sample_excel_trip 55.0] !! i = Some e
                 ∧ [sample_trip "a" 55 None 1] !! i = Some d
                 ∧ derived_row_mismatch calc (i + 1) e d m.
Proof.
  split; [reflexivity|].
  exact (derived_fields_compared "2024" [sample_excel_trip 55.0] sample_vehicle
           [sample_trip "a" 55 None 1] eq_refl).
Defined.

Lemma import_is_year_scoped_witness :
  ∃ o,
    ImportExcel.main sample_num_str sample_str_num sample_sql_year sample_sheet
      sample_uuids "now" sample_db = o
    ∧ stored_trip "old-2023" "2023-12-20" ∈ ImportExcel.trips_after o sample_db.
Proof.
  eexists. split; [reflexivity|].
  destruct (import_is_year_scoped sample_num_str sample_str_num sample_sql_year
              sample_sheet sample_uuids "now" sample_db _ eq_refl) as (Hkeep & _).
  apply (Hkeep "2024").
  - vm_compute. reflexivity.
  - left.
  - vm_compute. discriminate.
Defined.

Lemma imported_trips_full_tank_witness :
  ∃ table',
    ImportExcel.main sample_num_str sample_str_num sample_sql_year sample_sheet
      sample_uuids "now" sample_db = ImportExcel.Committed table'
    ∧ ∃ kept new, table' = kept ++ new ∧ ∀ t, t ∈ new → full_tank t = 1%Z.
Proof.
  eexists. split; [vm_compute; reflexivity|].
  destruct (imported_trips_full_tank sample_num_str sample_str_num sample_sql_year
              sample_sheet sample_uuids "now" sample_db _
              ltac:(vm_compute; reflexivity))
    as (kept & new & E & _ & Hfull & _).
  exists kept, new. split; [exact E|exact Hfull].
Defined.

(** * Further properties of the calculation *)

Section PeriodsByData.

Lemma open_period_prefix (pre buf p : list trip) :
  open_period pre buf → p `prefix_of` buf → open_period pre p.
Proof.
  intros [B Hopen] [k ->]. split; [exact B|].
  intros q Hq [k' ->]. apply Hopen; [exact Hq|].
  exists (k' ++ k). rewrite app_assoc. reflexivity.
Qed.

(** The loop variables at the end of an open run. *)
Lemma open_run_state (pre buf : list trip) (st : rate_state) :
  open_period pre buf →
  rate_loop rate_init (pre ++ buf) = Some st →
  current_trip_ids st = id <$> buf
  ∧ km_in_period st == total_distance buf
  ∧ fuel_in_period st == total_fuel buf.
Proof.
  intros [B Hopen] E.
  destruct (scan_invariant (pre ++ buf))
    as (st' & pre0 & buf0 & E' & Heq & [B0 Hopen0] & Hids & Hkm & Hf).
  destruct (last_boundary_unique pre buf pre0 buf0 Heq B B0 Hopen Hopen0) as [<- <-].
  assert (st' = st) as -> by congruence. auto.
Qed.

Lemma ends_period_snoc (p : list trip) (x : trip) :
  ends_period (p ++ [x]) ↔ full_refuel x ∧ 0 < total_distance (p ++ [x]).
Proof.
  split.
  - intros (body & last & Heq & Hfull & Hkm).
    apply app_inj_tail in Heq as [_ ->]. auto.
  - intros [Hfull Hkm]. exists p, x. auto.
Qed.

Lemma ends_period_nil : ¬ ends_period [].
Proof. intros (body & last & Heq & _). destruct body; discriminate. Qed.

(** After an open run, the next trip makes a boundary exactly when the
    run with it ends a period. *)
Lemma boundary_snoc_iff (pre buf : list trip) (x : trip) :
  open_period pre buf →
  boundary (pre ++ buf ++ [x]) ↔ ends_period (buf ++ [x]).
Proof.
  intros Hopen. destruct (rate_loop_total (pre ++ buf) rate_init) as [st E].
  destruct (open_run_state pre buf st Hopen E) as (_ & Hkm & _).
  rewrite ends_period_snoc, total_distance_snoc, <- Hkm.
  unfold boundary. rewrite app_assoc, (buffer_after_snoc _ _ _ E).
  destruct (rate_step_cases st x) as [[G Es]|[G (fuel & _ & Es)]]; rewrite Es; simpl.
  - split; [|reflexivity]. intros _. destruct G as (Hf & Hft & Hk).
    split; [split; assumption|exact Hk].
  - split.
    + intros H. destruct (current_trip_ids st); discriminate.
    + intros [[Hf Hft] Hk]. exfalso. apply G. split; [exact Hf|]. split; assumption.
Qed.

Lemma open_period_no_end (pre tail : list trip) :
  open_period pre tail → no_end tail.
Proof.
  intros Hopen p Hp He. destruct p as [|x p _] using rev_ind.
  - exact (ends_period_nil He).
  - assert (p `prefix_of` tail) as Hpp.
    { destruct Hp as [k ->]. exists ([x] ++ k). rewrite <- app_assoc. reflexivity. }
    apply (boundary_snoc_iff pre p x (open_period_prefix _ _ _ Hopen Hpp)) in He.
    destruct Hopen as [_ Hopen]. apply (Hopen (p ++ [x])); [|exact Hp|exact He].
    intros H. apply app_eq_nil in H as [_ H]. discriminate.
Qed.

Lemma closed_period_first_end (pre seg : list trip) :
  closed_period pre seg → first_end seg.
Proof.
  intros (B & Hne & Bend & Hmid).
  destruct seg as [|last body _] using rev_ind; [congruence|].
  assert (open_period pre body) as Hopen.
  { split; [exact B|]. intros p Hp [k Hk]. apply Hmid; [exact Hp| |].
    - intros Hps. rewrite Hk, <- app_assoc in Hps.
      apply (f_equal length) in Hps. rewrite !length_app in Hps. simpl in Hps. lia.
    - exists (k ++ [last]). rewrite Hk, app_assoc. reflexivity. }
  split.
  - apply (boundary_snoc_iff pre body last Hopen), Bend.
  - intros p Hp Hneq. apply prefix_snoc_inv in Hp as [->|Hp]; [congruence|].
    exact (open_period_no_end pre body Hopen p Hp).
Qed.

End PeriodsByData.

Section RatesByData.

Lemma prefix_eq_or_shorter (a b : list trip) :
  a `prefix_of` b → a = b ∨ a ≠ b.
Proof.
  intros [k ->]. destruct k as [|x k]; [left; symmetry; apply app_nil_r|].
  right. intros H. apply (f_equal length) in H. rewrite length_app in H.
  simpl in H. lia.
Qed.

Lemma first_end_unique (a b l : list trip) :
  first_end a → first_end b → a `prefix_of` l → b `prefix_of` l → a = b.
Proof.
  intros [Ea Ha] [Eb Hb] Pa Pb.
  destruct (prefix_weak_total a b l Pa Pb) as [H|H].
  - destruct (prefix_eq_or_shorter a b H) as [Heq|Hne]; [exact Heq|].
    exfalso. exact (Hb _ H Hne Ea).
  - destruct (prefix_eq_or_shorter b a H) as [Heq|Hne]; [symmetry; exact Heq|].
    exfalso. exact (Ha _ H Hne Eb).
Qed.

(** The split into periods is determined by the data. *)
Lemma decomposition_unique (ps ps' : list (list trip)) (tl tl' : list trip) :
  concat ps ++ tl = concat ps' ++ tl' →
  Forall first_end ps → Forall first_end ps' → no_end tl → no_end tl' →
  ps = ps' ∧ tl = tl'.
Proof.
  revert ps'. induction ps as [|a ps IH]; intros [|b ps'] Heq Hps Hps' Htl Htl'.
  - auto.
  - exfalso. simpl in Heq. apply Forall_cons in Hps' as [[Eb _] _].
    apply (Htl b); [|exact Eb]. rewrite Heq, <- app_assoc. apply prefix_app_r. reflexivity.
  - exfalso. simpl in Heq. apply Forall_cons in Hps as [[Ea _] _].
    apply (Htl' a); [|exact Ea]. rewrite <- Heq, <- app_assoc. apply prefix_app_r. reflexivity.
  - simpl in Heq. rewrite <- !app_assoc in Heq.
    apply Forall_cons in Hps as [Fa Hps]. apply Forall_cons in Hps' as [Fb Hps'].
    assert (a = b) as ->.
    { apply (first_end_unique a b (a ++ concat ps ++ tl) Fa Fb).
      - apply prefix_app_r. reflexivity.
      - rewrite Heq. apply prefix_app_r. reflexivity. }
    apply app_inv_head in Heq. destruct (IH ps' Heq Hps Hps' Htl Htl') as [-> ->]. auto.
Qed.

Lemma closed_period_rates (tp : Q) (pre seg post : list trip) (rs : gmap string Q) :
  NoDup (id <$> pre ++ seg ++ post) →
  calc_rates tp (pre ++ seg ++ post) = Some rs →
  closed_period pre seg →
  ∃ r, r == total_fuel seg / total_distance seg * 100
       ∧ ∀ t, t ∈ seg → rs !! id t = Some r.
Proof.
  intros Hnd Ers Hcp. unfold calc_rates in Ers.
  destruct (rate_loop rate_init (pre ++ seg ++ post)) as [stf|] eqn:Ef; [|discriminate].
  simpl in Ers. injection Ers as <-.
  destruct (closed_period_state pre seg Hcp) as (st & r & E & Hids & Hr & Hrates).
  exists r. split; [exact Hr|]. intros t Ht.
  rewrite app_assoc, rate_loop_app, E in Ef. simpl in Ef.
  destruct (rate_loop_frame post st stf (id t) Ef) as [Hsame Hbuf].
  - rewrite Hids. apply not_elem_of_nil.
  - rewrite !fmap_app in Hnd. apply NoDup_app in Hnd as (_ & _ & Hnd).
    apply NoDup_app in Hnd as (_ & Hnd & _). apply Hnd.
    apply list_elem_of_fmap. eauto.
  - rewrite assign_all_notin by exact Hbuf. rewrite Hsame. apply Hrates, Ht.
Qed.

Lemma open_period_rates (tp : Q) (pre tail : list trip) (rs : gmap string Q) :
  calc_rates tp (pre ++ tail) = Some rs →
  open_period pre tail →
  ∀ t, t ∈ tail → rs !! id t = Some tp.
Proof.
  intros Ers Hopen t Ht. unfold calc_rates in Ers.
  destruct (rate_loop rate_init (pre ++ tail)) as [stf|] eqn:Ef; [|discriminate].
  simpl in Ers. injection Ers as <-.
  destruct (open_run_state pre tail stf Hopen Ef) as (Hids & _).
  apply assign_all_in. rewrite Hids. apply list_elem_of_fmap. eauto.
Qed.

Lemma fuel_added_nonneg (t : trip) : 0 <= fuel_added t.
Proof.
  unfold fuel_added. destruct (fuel_liters t) as [f|]; [|apply Qle_refl].
  destruct (Qlt_le_dec 0 f); [apply Qlt_le_weak; assumption|apply Qle_refl].
Qed.

Lemma total_fuel_nonneg (l : list trip) : 0 <= total_fuel l.
Proof.
  unfold total_fuel. induction l as [|t l IH]; simpl; [apply Qle_refl|].
  pose proof (fuel_added_nonneg t). lra.
Qed.

(** The split of [periods_partition], described by the data. *)
Lemma periods_partition_by_data (trips : list trip) :
  ∃ periods tail,
    trips = concat periods ++ tail
    ∧ Forall first_end periods ∧ no_end tail
    ∧ open_period (concat periods) tail
    ∧ ∀ k seg, periods !! k = Some seg → closed_period (concat (take k periods)) seg.
Proof.
  destruct (periods_partition trips) as (periods & tail & Heq & Hopen & Hclosed).
  exists periods, tail. split; [exact Heq|]. split; [|split; [|split; assumption]].
  - apply Forall_lookup. intros k seg Hk.
    exact (closed_period_first_end _ _ (Hclosed k seg Hk)).
  - exact (open_period_no_end _ _ Hopen).
Qed.

Lemma concat_take_lookup (ps : list (list trip)) (k : nat) (seg : list trip) :
  ps !! k = Some seg →
  concat ps = concat (take k ps) ++ seg ++ concat (drop (S k) ps).
Proof.
  intros Hk. rewrite <- (take_drop_middle ps k seg Hk) at 1.
  rewrite concat_app. reflexivity.
Qed.

(** Periods found in a prefix are the first periods of the whole. *)
Lemma periods_prefix (ps periods : list (list trip)) (tail : list trip) :
  concat ps `prefix_of` concat periods ++ tail →
  Forall first_end ps → Forall first_end periods → no_end tail →
  ps `prefix_of` periods.
Proof.
  revert periods. induction ps as [|b ps IH]; intros periods Hp Hps Hper Htl.
  - apply prefix_nil.
  - apply Forall_cons in Hps as [Fb Hps]. simpl in Hp.
    destruct periods as [|a periods].
    + exfalso. simpl in Hp. apply (Htl b); [|exact (proj1 Fb)].
      destruct Hp as [k ->]. rewrite <- app_assoc. apply prefix_app_r. reflexivity.
    + apply Forall_cons in Hper as [Fa Hper]. simpl in Hp. rewrite <- app_assoc in Hp.
      assert (b = a) as ->.
      { apply (first_end_unique b a (a ++ concat periods ++ tail) Fb Fa).
        - destruct Hp as [k ->]. rewrite <- app_assoc. apply prefix_app_r. reflexivity.
        - apply prefix_app_r. reflexivity. }
      apply prefix_app_inv in Hp. apply prefix_cons. apply IH; assumption.
Qed.

End RatesByData.

(** X1. Every trip sequence splits in exactly one way into periods
    followed by an open tail, where a period is a run that ends with a
    full-tank refuel (positive [fuel_liters], [full_tank] set) after a
    positive distance and has no shorter prefix that does, and no prefix
    of the tail is such a run.  The loop of [get_calculated_values]
    follows this split: after a scanned prefix its buffer is empty
    exactly when the prefix is made of the first [k] periods. *)
Theorem segmentation_by_data (trips : list trip) :
  ∃ periods tail,
    trips = concat periods ++ tail
    ∧ Forall first_end periods ∧ no_end tail
    ∧ (∀ ps tl, trips = concat ps ++ tl → Forall first_end ps → no_end tl →
         ps = periods ∧ tl = tail)
    ∧ (∀ p, p `prefix_of` trips →
         (buffer_after p = Some []
          ↔ ∃ k, (k ≤ length periods)%nat ∧ p = concat (take k periods))).
Proof.
  destruct (periods_partition_by_data trips)
    as (periods & tail & Heq & Hfe & Hne & Hopen & Hclosed).
  exists periods, tail. split; [exact Heq|]. split; [exact Hfe|]. split; [exact Hne|].
  split.
  - intros ps tl Heq' Hps Htl. rewrite Heq in Heq'. symmetry in Heq'.
    exact (decomposition_unique ps periods tl tail Heq' Hps Hfe Htl Hne).
  - intros p Hp. split.
    + intros Bp.
      destruct (periods_partition_by_data p) as (ps & tl & -> & Hps & _ & [_ Ho] & _).
      destruct tl as [|x tl].
      * rewrite app_nil_r in *. rewrite Heq in Hp.
        destruct (periods_prefix ps periods tail Hp Hps Hfe Hne) as [rest ->].
        exists (length ps). rewrite length_app, take_app_length. split; [lia|reflexivity].
      * exfalso. apply (Ho (x :: tl)); [discriminate|reflexivity|exact Bp].
    + intros (k & Hk & ->). destruct (decide (k = length periods)) as [->|Hlt].
      * rewrite firstn_all. apply Hopen.
      * destruct (lookup_lt_is_Some_2 periods k) as [seg Hseg]; [lia|].
        apply (Hclosed k seg Hseg).
Qed.

(** X2. With distinct trip ids, the rates follow the split of the data
    into periods and tail: every trip of a period has the fuel added
    over the period divided by its distance, times 100, and every trip
    of the tail has the reference rate. *)
Theorem rates_by_data (tp : Q) (trips : list trip) (ps : list (list trip))
    (tl : list trip) :
  NoDup (id <$> trips) →
  trips = concat ps ++ tl → Forall first_end ps → no_end tl →
  ∃ rs, calc_rates tp trips = Some rs
    ∧ (∀ seg, seg ∈ ps →
         ∃ r, r == total_fuel seg / total_distance seg * 100
              ∧ 0 < r
              ∧ ∀ t, t ∈ seg → rs !! id t = Some r)
    ∧ (∀ t, t ∈ tl → rs !! id t = Some tp).
Proof.
  intros Hnd Heq Hps Htl.
  destruct (calc_rates_total tp trips) as [rs Ers]. exists rs. split; [exact Ers|].
  destruct (periods_partition_by_data trips)
    as (periods & tail & Heq' & Hfe & Hne & Hopen & Hclosed).
  assert (ps = periods ∧ tl = tail) as [-> ->].
  { rewrite Heq' in Heq. symmetry in Heq.
    exact (decomposition_unique ps periods tl tail Heq Hps Hfe Htl Hne). }
  split.
  - intros seg Hseg. apply list_elem_of_lookup in Hseg as [k Hk].
    pose proof (Hclosed k seg Hk) as Hcp.
    assert (trips = concat (take k periods) ++ seg ++ (concat (drop (S k) periods) ++ tail))
      as Hsplit.
    { rewrite Heq', (concat_take_lookup periods k seg Hk), <- !app_assoc. reflexivity. }
    rewrite Hsplit in Hnd, Ers.
    destruct (closed_period_rates tp _ _ _ rs Hnd Ers Hcp) as (r & Hr & Hrates).
    exists r. split; [exact Hr|]. split; [|exact Hrates].
    destruct (closed_period_first_end _ _ Hcp) as [(body & last & -> & Hfull & Hkm) _].
    rewrite Hr. apply Qmult_lt_0_compat; [|reflexivity].
    apply Qlt_shift_div_l; [exact Hkm|]. rewrite Qmult_0_l.
    rewrite total_fuel_snoc.
    pose proof (total_fuel_nonneg body) as Hb.
    assert (0 < fuel_added last) as Hl.
    { destruct Hfull as [(f & Ef & Hf) _]. unfold fuel_added. rewrite Ef.
      destruct (Qlt_le_dec 0 f) as [_|Hle]; [exact Hf|].
      exfalso. exact (Qlt_not_le _ _ Hf Hle). }
    lra.
  - rewrite Heq' in Ers. exact (open_period_rates tp _ _ rs Ers Hopen).
Qed.

Section Dictionaries.

Lemma assign_all_dom (rate : Q) (ids : list string) (r : gmap string Q) :
  dom (assign_all rate ids r) = list_to_set ids ∪ dom r.
Proof.
  unfold assign_all. revert r. induction ids as [|x ids IH]; intros r; simpl.
  - set_solver.
  - rewrite IH, dom_insert_L. set_solver.
Qed.

Lemma rate_loop_dom (l : list trip) (st st' : rate_state) :
  rate_loop st l = Some st' →
  dom (rates st') ∪ list_to_set (current_trip_ids st')
  = dom (rates st) ∪ list_to_set (current_trip_ids st) ∪ list_to_set (id <$> l).
Proof.
  revert st. induction l as [|t l IH]; intros st E.
  - injection E as <-. set_solver.
  - simpl in E.
    destruct (rate_step_cases st t) as [[_ Es]|[_ (fuel & _ & Es)]];
      rewrite Es in E; simpl in E; rewrite (IH _ E); simpl.
    + rewrite assign_all_dom, list_to_set_app_L. set_solver.
    + rewrite list_to_set_app_L. set_solver.
Qed.

Lemma tank_loop_dom (rs : gmap string Q) (tp tank_size : Q) (l : list trip)
    (st : tank_state) :
  dom (zostatok_map (tank_loop rs tp tank_size st l))
  = dom (zostatok_map st) ∪ list_to_set (id <$> l)
  ∧ dom (spotreba_map (tank_loop rs tp tank_size st l))
    = dom (spotreba_map st) ∪ list_to_set (id <$> l).
Proof.
  revert st. induction l as [|t l IH]; intros st; simpl.
  - split; set_solver.
  - destruct (IH (tank_step rs tp tank_size st t)) as [-> ->].
    unfold tank_step. simpl. rewrite !dom_insert_L. split; set_solver.
Qed.

(** With distinct ids every trip's consumption is on record. *)
Lemma spotreba_recorded (rs : gmap string Q) (tp tank_size : Q) (trips : list trip)
    (st : tank_state) (t : trip) :
  NoDup (id <$> trips) → t ∈ trips →
  spotreba_map (tank_loop rs tp tank_size st trips) !! id t
  = Some (distance_km t * default tp (rs !! id t) / 100).
Proof.
  intros Hnd Hin. apply list_elem_of_split in Hin as (pre & post & ->).
  rewrite fmap_app, fmap_cons in Hnd.
  apply NoDup_app in Hnd as (_ & _ & Hnd). apply NoDup_cons in Hnd as [Ht _].
  rewrite tank_loop_app.
  change (tank_loop rs tp tank_size ?s (t :: post))
    with (tank_loop rs tp tank_size (tank_step rs tp tank_size s t) post).
  destruct (tank_loop_frame rs tp tank_size post
              (tank_step rs tp tank_size (tank_loop rs tp tank_size st pre) t)
              (id t) Ht) as [_ ->].
  apply tank_step_records.
Qed.

End Dictionaries.

(** X3. The three dictionaries [get_calculated_values] returns have the
    same keys: the ids of the trips it was given, no more and no fewer. *)
Theorem calculated_keys_are_trip_ids (v : vehicle) (trips : list trip) :
  ∃ c, get_calculated_values v trips = Some c
    ∧ dom (c_rates c) = list_to_set (id <$> trips)
    ∧ dom (c_zostatok c) = list_to_set (id <$> trips)
    ∧ dom (c_spotreba c) = list_to_set (id <$> trips).
Proof.
  unfold get_calculated_values, calc_rates.
  destruct (rate_loop_total trips rate_init) as [stf Ef]. rewrite Ef. simpl.
  eexists. split; [reflexivity|]. simpl.
  destruct (tank_loop_dom (assign_all (tp_consumption v) (current_trip_ids stf) (rates stf))
              (tp_consumption v) (tank_size_liters v) trips
              (tank_init (tank_size_liters v))) as [-> ->].
  split; [|simpl; split; set_solver].
  rewrite assign_all_dom. pose proof (rate_loop_dom trips rate_init stf Ef) as H.
  simpl in H. set_solver.
Qed.

(** X4. Over a period the consumption attributed to its trips adds up
    to the fuel added in the period: the rate spreads the refuels of
    the period over its distance. *)
Theorem period_consumption_equals_fuel (v : vehicle) (trips : list trip)
    (ps : list (list trip)) (tl : list trip) :
  NoDup (id <$> trips) →
  trips = concat ps ++ tl → Forall first_end ps → no_end tl →
  ∃ c, get_calculated_values v trips = Some c
    ∧ ∀ seg, seg ∈ ps → total_consumed (c_spotreba c) seg == total_fuel seg.
Proof.
  intros Hnd Heq Hps Htl.
  destruct (get_calculated_values_total v trips) as [c Ec]. exists c.
  split; [exact Ec|]. intros seg Hseg.
  unfold get_calculated_values in Ec.
  destruct (calc_rates (tp_consumption v) trips) as [rs|] eqn:Ers; [|discriminate].
  simpl in Ec. injection Ec as <-. simpl.
  destruct (periods_partition_by_data trips)
    as (periods & tail & Heq' & Hfe & Hne & Hopen & Hclosed).
  assert (ps = periods ∧ tl = tail) as [-> ->].
  { rewrite Heq' in Heq. symmetry in Heq.
    exact (decomposition_unique ps periods tl tail Heq Hps Hfe Htl Hne). }
  pose proof Hseg as Hseg'. apply list_elem_of_lookup in Hseg' as [k Hk].
  pose proof (Hclosed k seg Hk) as Hcp.
  assert (trips = concat (take k periods) ++ seg ++ (concat (drop (S k) periods) ++ tail))
    as Hsplit.
  { rewrite Heq', (concat_take_lookup periods k seg Hk), <- !app_assoc. reflexivity. }
  assert (∃ r, r == total_fuel seg / total_distance seg * 100
               ∧ ∀ t, t ∈ seg → rs !! id t = Some r) as (r & Hr & Hrates).
  { rewrite Hsplit in Hnd, Ers. exact (closed_period_rates _ _ _ _ rs Hnd Ers Hcp). }
  destruct (closed_period_first_end _ _ Hcp) as [(body & last & _ & _ & Hkm) _].
  assert (∀ t, t ∈ seg → t ∈ trips) as Hsub.
  { intros t Ht. rewrite Hsplit. rewrite !elem_of_app. auto. }
  assert (total_consumed
            (spotreba_map (tank_loop rs (tp_consumption v) (tank_size_liters v)
                             (tank_init (tank_size_liters v)) trips)) seg
          == total_distance seg * r / 100) as ->.
  { clear Hk Hcp Hsplit Hkm Hseg Hr. unfold total_consumed, total_distance.
    induction seg as [|t seg IH]; simpl; [reflexivity|].
    rewrite (spotreba_recorded _ _ _ _ _ t Hnd) by (apply Hsub; left).
    rewrite (Hrates t) by left. simpl. rewrite IH.
    - field.
    - intros u Hu. apply Hrates. right. exact Hu.
    - intros u Hu. apply Hsub. right. exact Hu. }
  rewrite Hr. field. intros H0. rewrite H0 in Hkm. exact (Qlt_irrefl _ Hkm).
Qed.

Section Levels.

Lemma assign_all_lookup (rate : Q) (ids : list string) (r : gmap string Q)
    (tid : string) (x : Q) :
  assign_all rate ids r !! tid = Some x → x = rate ∨ r !! tid = Some x.
Proof.
  destruct (decide (tid ∈ ids)) as [Hin|Hin].
  - rewrite assign_all_in by exact Hin. intros [= <-]. left. reflexivity.
  - rewrite assign_all_notin by exact Hin. auto.
Qed.

(** The fuel summed so far is never negative, and every rate a closed
    period writes is positive. *)
Lemma rate_loop_positive (l : list trip) (st st' : rate_state) :
  rate_loop st l = Some st' →
  0 <= fuel_in_period st →
  (∀ tid r, rates st !! tid = Some r → 0 < r) →
  0 <= fuel_in_period st' ∧ ∀ tid r, rates st' !! tid = Some r → 0 < r.
Proof.
  revert st. induction l as [|t l IH]; intros st E Hf Hr.
  - injection E as <-. auto.
  - simpl in E. pose proof (fuel_added_nonneg t) as Ha.
    destruct (rate_step_cases st t) as [[G Es]|[_ (fuel & Hfuel & Es)]];
      rewrite Es in E; simpl in E; apply (IH _ E); simpl.
    + apply Qle_refl.
    + intros tid r Hl. apply assign_all_lookup in Hl as [->|Hl]; [|exact (Hr _ _ Hl)].
      destruct G as ((f & Ef & Hpos) & _ & Hkm).
      assert (fuel_added t == f) as Hfa.
      { unfold fuel_added. rewrite Ef. destruct (Qlt_le_dec 0 f) as [_|Hle];
          [reflexivity|exfalso; exact (Qlt_not_le _ _ Hpos Hle)]. }
      apply Qmult_lt_0_compat; [|reflexivity].
      apply Qlt_shift_div_l; [exact Hkm|]. lra.
    + lra.
    + exact Hr.
Qed.

Lemma calc_rates_values (tp : Q) (trips : list trip) (rs : gmap string Q) :
  calc_rates tp trips = Some rs →
  ∀ tid r, rs !! tid = Some r → r = tp ∨ 0 < r.
Proof.
  unfold calc_rates. intros E tid r Hl.
  destruct (rate_loop rate_init trips) as [st|] eqn:Est; [|discriminate].
  simpl in E. injection E as <-.
  apply assign_all_lookup in Hl as [->|Hl]; [auto|]. right.
  destruct (rate_loop_positive trips rate_init st Est) as [_ H].
  - apply Qle_refl.
  - intros ? ? Hx. simpl in Hx. rewrite lookup_empty in Hx. discriminate.
  - exact (H _ _ Hl).
Qed.

Section Loop.

Variables (rs : gmap string Q) (tp tank_size : Q).

(** The running level stays within the tank. *)
Lemma tank_loop_level_range (l : list trip) (st : tank_state) :
  0 <= tank_size →
  0 <= zostatok st ∧ zostatok st <= tank_size →
  0 <= zostatok (tank_loop rs tp tank_size st l)
  ∧ zostatok (tank_loop rs tp tank_size st l) <= tank_size.
Proof.
  intros Hcap. revert st. induction l as [|t l IH]; intros st Hst; [exact Hst|].
  simpl. apply IH. unfold tank_step. simpl. apply clamp_range, Hcap.
Qed.

(** With distinct ids, what is on record for a trip: its consumption,
    and the level the step computes from the level before it, which is
    the level on record for the trip before. *)
Lemma tank_records (pre post : list trip) (t : trip) :
  NoDup (id <$> pre ++ t :: post) →
  let final := tank_loop rs tp tank_size (tank_init tank_size) (pre ++ t :: post) in
  let st1 := tank_loop rs tp tank_size (tank_init tank_size) pre in
  let consumed := distance_km t * default tp (rs !! id t) / 100 in
  level_before tank_size (zostatok_map final) pre = Some (zostatok st1)
  ∧ spotreba_map final !! id t = Some consumed
  ∧ zostatok_map final !! id t
    = Some (clamp tank_size (refuel tank_size t (zostatok st1 - consumed))).
Proof.
  intros Hnd. simpl.
  rewrite fmap_app, fmap_cons in Hnd.
  apply NoDup_app in Hnd as (Hpre & Hsep & Hnd). apply NoDup_cons in Hnd as [Ht Hpost].
  rewrite tank_loop_app.
  pose proof (tank_loop_level rs tp tank_size pre (tank_init tank_size)) as Hl.
  set (st1 := tank_loop rs tp tank_size (tank_init tank_size) pre) in *.
  change (tank_loop rs tp tank_size st1 (t :: post))
    with (tank_loop rs tp tank_size (tank_step rs tp tank_size st1 t) post).
  destruct (tank_loop_frame rs tp tank_size post (tank_step rs tp tank_size st1 t)
              (id t) Ht) as [-> ->].
  destruct (tank_step_records rs tp tank_size st1 t) as [-> ->].
  split; [|auto]. rewrite <- Hl. unfold level_before.
  destruct (last pre) as [p|] eqn:Elast; [|reflexivity].
  assert (p ∈ pre) as Hp.
  { destruct pre as [|x pre _] using rev_ind; [discriminate|].
    rewrite last_snoc in Elast. injection Elast as ->.
    apply elem_of_app. right. left. }
  assert (id p ∈ id <$> pre) as Hidp by (apply list_elem_of_fmap; eauto).
  destruct (tank_loop_frame rs tp tank_size post (tank_step rs tp tank_size st1 t) (id p))
    as [-> _].
  { intros H. apply (Hsep _ Hidp). right. exact H. }
  unfold tank_step. simpl. apply lookup_insert_ne.
  intros H. apply (Hsep _ Hidp). rewrite H. left.
Qed.

End Loop.

End Levels.

(** X5. For a tank of non-negative size, a non-negative reference rate,
    non-negative distances and distinct ids: no trip has a negative
    consumption on record, and a trip without a positive [fuel_liters]
    never has a higher level on record than the level before it. *)
Theorem level_falls_without_refuel (v : vehicle) (trips : list trip) :
  0 <= tank_size_liters v → 0 <= tp_consumption v →
  (∀ t, t ∈ trips → 0 <= distance_km t) →
  NoDup (id <$> trips) →
  ∃ c, get_calculated_values v trips = Some c
    ∧ (∀ t, t ∈ trips → ∃ s, c_spotreba c !! id t = Some s ∧ 0 <= s)
    ∧ (∀ pre t post, trips = pre ++ t :: post →
         fuel_liters t = None ∨ (∃ f, fuel_liters t = Some f ∧ f <= 0) →
         ∃ before remaining,
           level_before (tank_size_liters v) (c_zostatok c) pre = Some before
           ∧ c_zostatok c !! id t = Some remaining
           ∧ remaining <= before).
Proof.
  intros Hcap Htp Hdist Hnd.
  destruct (get_calculated_values_total v trips) as [c Ec]. exists c.
  split; [exact Ec|]. unfold get_calculated_values in Ec.
  destruct (calc_rates (tp_consumption v) trips) as [rs|] eqn:Ers; [|discriminate].
  simpl in Ec. injection Ec as <-. simpl.
  assert (∀ t, t ∈ trips →
            0 <= distance_km t * default (tp_consumption v) (rs !! id t) / 100) as Hcons.
  { intros t Ht. specialize (Hdist t Ht).
    assert (0 <= default (tp_consumption v) (rs !! id t)) as Hrate.
    { destruct (rs !! id t) as [r|] eqn:Er; simpl; [|exact Htp].
      destruct (calc_rates_values _ _ _ Ers _ _ Er) as [->|H];
        [exact Htp|apply Qlt_le_weak, H]. }
    apply Qle_shift_div_l; [reflexivity|]. rewrite Qmult_0_l.
    apply Qmult_le_0_compat; assumption. }
  split.
  - intros t Ht. eexists. split; [apply (spotreba_recorded _ _ _ _ _ t Hnd Ht)|].
    apply Hcons, Ht.
  - intros pre t post -> Hno.
    destruct (tank_records rs (tp_consumption v) (tank_size_liters v) pre post t Hnd)
      as (Hb & _ & Hz).
    eexists _, _. split; [exact Hb|]. split; [exact Hz|].
    unfold refuel. apply positive_None in Hno. rewrite Hno.
    destruct (tank_loop_level_range rs (tp_consumption v) (tank_size_liters v) pre
                (tank_init (tank_size_liters v)) Hcap) as [H0 H1].
    { simpl. split; [exact Hcap|apply Qle_refl]. }
    assert (0 <= distance_km t * default (tp_consumption v) (rs !! id t) / 100) as Hs.
    { apply Hcons. apply elem_of_app. right. left. }
    unfold clamp. apply max_lub; [exact H0|].
    eapply Qle_trans; [apply min_le_l|]. lra.
Qed.

(** * Further properties of the comparison *)

Section ReportOrder.





End ReportOrder.


(** * Further properties of the import *)

Section ImportRuns.

Import ImportExcel.

Variable num_str : Q → string.
Variable str_num : string → option Q.
Variable sql_year : string → option string.

(** The second loop is the table with the sheet's trips appended,
    unless an identifier is taken. *)
Lemma insert_rows_char (vid now : string) (uuids : nat → string) (len_df : nat)
    (rows : list (list cell)) (imported : nat) (table : list trip) :
  NoDup (id <$> table) →
  insert_rows num_str str_num vid now uuids len_df rows imported table
  = new ← sheet_trips num_str str_num vid now uuids len_df rows imported;
    if decide (NoDup (id <$> table ++ new))
    then Some ((imported + length new)%nat, table ++ new) else None.
Proof.
  revert imported table. induction rows as [|row rows IH]; intros imported table Hnd.
  - simpl. rewrite app_nil_r, Nat.add_0_r. rewrite decide_True by exact Hnd. reflexivity.
  - simpl. destruct (row !! 0%nat) as [date_val|]; simpl; [|reflexivity].
    destruct (skipped num_str date_val); [apply IH, Hnd|].
    destruct (make_trip num_str str_num vid now (uuids imported) len_df imported
                date_val row) as [t|]; simpl; [|reflexivity].
    case_bool_decide as Hdup.
    + destruct (sheet_trips _ _ _ _ _ _ _ _) as [new|]; simpl; [|reflexivity].
      rewrite decide_False; [reflexivity|].
      rewrite fmap_app, fmap_cons. intros H. apply NoDup_app in H as (_ & H & _).
      apply (H _ Hdup). left.
    + assert (NoDup (id <$> table ++ [t])) as Hnd'.
      { rewrite fmap_app. apply NoDup_app. split; [exact Hnd|].
        split; [|apply NoDup_singleton]. intros x Hx Hx'.
        apply list_elem_of_singleton in Hx'. simpl in Hx'. subst x. contradiction. }
      rewrite (IH _ _ Hnd').
      destruct (sheet_trips _ _ _ _ _ _ _ _) as [new|]; simpl; [|reflexivity].
      rewrite <- !app_assoc. simpl.
      rewrite Nat.add_succ_r. reflexivity.
Qed.

(** What the sheet's trips are: one per row that is not passed over,
    in row order, numbered from [imported]. *)
Lemma sheet_trips_spec (vid now : string) (uuids : nat → string) (len_df : nat)
    (rows : list (list cell)) (imported : nat) (new : list trip) :
  sheet_trips num_str str_num vid now uuids len_df rows imported = Some new →
  (length new + count_skipped num_str rows = length rows)%nat
  ∧ ∀ k t, new !! k = Some t →
      id t = uuids (imported + k)%nat ∧ vehicle_id t = vid ∧ full_tank t = 1%Z
      ∧ sort_order t = (Z.of_nat len_df - 3 - Z.of_nat (imported + k) - 1)%Z.
Proof.
  revert imported new. induction rows as [|row rows IH]; intros imported new H.
  - simpl in H. injection H as <-. split; [reflexivity|]. intros k t Hk. discriminate.
  - simpl in H. unfold count_skipped. rewrite filter_cons.
    destruct (row !! 0%nat) as [date_val|] eqn:E0; simpl in H; [|discriminate].
    destruct (skipped num_str date_val) eqn:Es.
    + destruct (IH _ _ H) as [Hlen Hnew].
      rewrite decide_True by (unfold skipped_row; rewrite E0; exact Es).
      split; [|exact Hnew]. simpl. unfold count_skipped in Hlen. lia.
    + destruct (make_trip _ _ _ _ _ _ _ _ _) as [t|] eqn:Et; simpl in H; [|discriminate].
      destruct (sheet_trips _ _ _ _ _ _ _ _) as [new'|] eqn:En; simpl in H; [|discriminate].
      injection H as <-. destruct (IH _ _ En) as [Hlen Hnew].
      rewrite decide_False by (unfold skipped_row; rewrite E0, Es; discriminate). split.
      * simpl. unfold count_skipped in Hlen. lia.
      * apply make_trip_fields in Et as (Hid & Hv & Hft & Hso).
        intros [|k] u Hk; simpl in Hk.
        -- injection Hk as <-. rewrite Nat.add_0_r. auto.
        -- replace (imported + S k)%nat with (S imported + k)%nat by lia.
           apply Hnew, Hk.
Qed.

(** The identifiers and the clock only show in [id], [created_at] and
    [updated_at]. *)
Lemma sheet_trips_same_data (vid now now' : string) (uuids uuids' : nat → string)
    (len_df : nat) (rows : list (list cell)) (imported : nat) (new : list trip) :
  sheet_trips num_str str_num vid now uuids len_df rows imported = Some new →
  ∃ new', sheet_trips num_str str_num vid now' uuids' len_df rows imported = Some new'
    ∧ Forall2 same_trip_data new new'.
Proof.
  revert imported new. induction rows as [|row rows IH]; intros imported new H.
  - simpl in H. injection H as <-. exists []. split; [reflexivity|constructor].
  - simpl in H. simpl.
    destruct (row !! 0%nat) as [date_val|]; simpl in *; [|discriminate].
    destruct (skipped num_str date_val); [apply IH, H|].
    unfold make_trip in *.
    repeat match type of H with
           | context [?r !! ?k ≫= _] =>
             destruct (r !! k); simpl in H |- *; [|discriminate]
           end.
    destruct (sheet_trips _ _ vid now uuids _ _ _) as [new0|] eqn:En; simpl in H;
      [|discriminate].
    injection H as <-. destruct (IH _ _ En) as (new' & -> & Hsame). simpl.
    eexists. split; [reflexivity|]. constructor; [|exact Hsame].
    unfold same_trip_data. simpl. repeat split.
Qed.

(** When [main] commits: a vehicle, a year, no short row and fresh
    identifiers; the table is then the kept rows and the sheet's trips. *)
Lemma main_committed_iff (df : list (list cell)) (uuids : nat → string)
    (now : string) (db : database) (v : vehicle) (vs : list vehicle) (y : string)
    (table' : list trip) :
  db_vehicles db = v :: vs →
  first_pass num_str (drop 3 df) = Some (Some y) → y ≠ "" →
  NoDup (id <$> db_trips db) →
  let kept := filter (λ t, negb (deleted sql_year (v_id v) y t)) (db_trips db) in
  main num_str str_num sql_year df uuids now db = Committed table'
  ↔ ∃ new,
      sheet_trips num_str str_num (v_id v) now uuids (length df) (drop 3 df) 0 = Some new
      ∧ NoDup (id <$> kept ++ new) ∧ table' = kept ++ new.
Proof.
  intros Hv Hy Hne Hnd kept. unfold main. rewrite Hv, Hy.
  rewrite bool_decide_eq_false_2 by exact Hne.
  assert (NoDup (id <$> kept)) as Hk.
  { unfold kept. clear -Hnd. induction (db_trips db) as [|x l IHl]; [constructor|].
    rewrite fmap_cons in Hnd. apply NoDup_cons in Hnd as [Hx Hnd].
    rewrite filter_cons. destruct (decide _); [|auto].
    rewrite fmap_cons. apply NoDup_cons. split; [|auto].
    intros Hin. apply Hx. apply list_elem_of_fmap in Hin as (u & -> & Hu).
    apply list_elem_of_filter in Hu as [_ Hu]. apply list_elem_of_fmap. eauto. }
  fold kept. rewrite (insert_rows_char _ _ _ _ _ _ _ Hk).
  destruct (sheet_trips _ _ _ _ _ _ _ _) as [new|]; simpl.
  - destruct (decide (NoDup (id <$> kept ++ new))) as [Hn|Hn].
    + split.
      * intros [= <-]. exists new. auto.
      * intros (new' & [= <-] & _ & ->). reflexivity.
    + split; [discriminate|]. intros (new' & [= <-] & Hn' & _). contradiction.
  - split; [discriminate|]. intros (new' & H & _). discriminate.
Qed.

(** A run of the second loop that returns has appended the sheet's
    trips. *)
Lemma insert_rows_sheet (vid now : string) (uuids : nat → string) (len_df : nat)
    (rows : list (list cell)) (imported : nat) (table : list trip)
    (imported' : nat) (table' : list trip) :
  insert_rows num_str str_num vid now uuids len_df rows imported table
  = Some (imported', table') →
  ∃ new, sheet_trips num_str str_num vid now uuids len_df rows imported = Some new
    ∧ table' = table ++ new.
Proof.
  revert imported table. induction rows as [|row rows IH]; intros imported table H.
  - simpl in H. injection H as <- <-. exists []. rewrite app_nil_r. auto.
  - simpl in H. simpl. destruct (row !! 0%nat) as [date_val|]; simpl in *; [|discriminate].
    destruct (skipped num_str date_val); [exact (IH _ _ H)|].
    destruct (make_trip _ _ _ _ _ _ _ _ _) as [t|]; simpl in *; [|discriminate].
    case_bool_decide; [discriminate|].
    destruct (IH _ _ H) as (new & -> & ->). simpl.
    exists (t :: new). rewrite <- app_assoc. auto.
Qed.

(** The year of the first pass is read off the first trip of the sheet. *)
Lemma first_pass_head (vid now : string) (uuids : nat → string) (len_df : nat)
    (rows : list (list cell)) (imported : nat) (new : list trip) :
  sheet_trips num_str str_num vid now uuids len_df rows imported = Some new →
  match first_pass num_str rows with
  | Some (Some y) => ∃ t rest, new = t :: rest ∧ substring 0 4 (date t) = y
  | Some None => new = []
  | None => False
  end.
Proof.
  revert new. induction rows as [|row rows IH]; intros new H.
  - simpl in H. injection H as <-. reflexivity.
  - simpl in H. simpl. destruct (row !! 0%nat) as [date_val|]; simpl in *; [|discriminate].
    destruct (skipped num_str date_val); [exact (IH _ H)|]. clear IH.
    destruct (make_trip _ _ _ _ _ _ _ _ _) as [t|] eqn:Et; simpl in *; [|discriminate].
    destruct (sheet_trips _ _ _ _ _ _ _ _) as [new'|]; simpl in H; [|discriminate].
    injection H as <-. exists t, new'. split; [reflexivity|].
    unfold make_trip in Et.
    repeat match type of Et with
           | (?o ≫= _) = Some _ => destruct o; simpl in Et; [|discriminate]
           end.
    injection Et as <-. reflexivity.
Qed.

(** Rows of at least 14 cells never raise. *)
Lemma sheet_trips_total (vid now : string) (uuids : nat → string) (len_df : nat)
    (rows : list (list cell)) (imported : nat) :
  Forall (λ row, (14 ≤ length row)%nat) rows →
  is_Some (sheet_trips num_str str_num vid now uuids len_df rows imported).
Proof.
  intros Hrows. revert imported. induction Hrows as [|row rows Hrow _ IH]; intros imported.
  - simpl. eauto.
  - simpl.
    assert (∀ k, (k < 14)%nat → is_Some (row !! k)) as Hcell.
    { intros k Hk. apply lookup_lt_is_Some_2. lia. }
    destruct (Hcell 0%nat) as [date_val ->]; [lia|]. simpl.
    destruct (skipped num_str date_val); [apply IH|].
    unfold make_trip.
    destruct (Hcell 1%nat) as [? ->]; [lia|]. destruct (Hcell 2%nat) as [? ->]; [lia|].
    destruct (Hcell 3%nat) as [? ->]; [lia|]. destruct (Hcell 4%nat) as [? ->]; [lia|].
    destruct (Hcell 6%nat) as [? ->]; [lia|]. destruct (Hcell 7%nat) as [? ->]; [lia|].
    destruct (Hcell 10%nat) as [? ->]; [lia|]. destruct (Hcell 13%nat) as [? ->]; [lia|].
    destruct (Hcell 12%nat) as [? ->]; [lia|]. simpl.
    destruct (IH (S imported)) as [new ->]. simpl. eauto.
Qed.

(** Fresh, pairwise distinct identifiers keep the ids of the table
    distinct. *)
Lemma sheet_trips_fresh (vid now : string) (uuids : nat → string) (len_df : nat)
    (rows : list (list cell)) (imported : nat) (new : list trip) (table : list trip) :
  sheet_trips num_str str_num vid now uuids len_df rows imported = Some new →
  NoDup (id <$> table) →
  (∀ j k, (j < k < imported + length rows)%nat → uuids j ≠ uuids k) →
  (∀ k, (k < imported + length rows)%nat → uuids k ∉ id <$> table) →
  NoDup (id <$> table ++ new).
Proof.
  intros Hs Hnd Hinj Hfresh.
  destruct (sheet_trips_spec _ _ _ _ _ _ _ Hs) as [Hlen Hnew].
  rewrite fmap_app. apply NoDup_app. split; [exact Hnd|]. split.
  - intros x Hx Hx'. apply list_elem_of_fmap in Hx' as (t & -> & Ht).
    apply list_elem_of_lookup in Ht as [k Hk].
    destruct (Hnew k t Hk) as (Hid & _). rewrite Hid in Hx.
    apply lookup_lt_Some in Hk. apply (Hfresh (imported + k)%nat); [lia|exact Hx].
  - apply NoDup_alt. intros j k x Hj Hk.
    rewrite list_lookup_fmap in Hj, Hk.
    destruct (new !! j) as [tj|] eqn:Ej; [|discriminate].
    destruct (new !! k) as [tk|] eqn:Ek; [|discriminate].
    simpl in Hj, Hk. injection Hj as Hj. injection Hk as Hk.
    destruct (Hnew j tj Ej) as (Hidj & _). destruct (Hnew k tk Ek) as (Hidk & _).
    apply lookup_lt_Some in Ej, Ek.
    destruct (Nat.lt_trichotomy j k) as [Hlt|[Heq|Hgt]]; [exfalso|exact Heq|exfalso].
    + apply (Hinj (imported + j) (imported + k))%nat; [lia|]. congruence.
    + apply (Hinj (imported + k) (imported + j))%nat; [lia|]. congruence.
Qed.

End ImportRuns.

(** X7. A committed import has inserted at least one trip.  With [n]
    trips inserted and [s] rows passed over (blank or [Total]) among
    the rows from index 3, [n + s] is the number of those rows and the
    [k]-th inserted trip has the key [s + (n - 1 - k)]: keys fall by one
    per inserted trip and the last one gets [s], which is 0 only when
    no row was passed over. *)
Theorem import_keys (num_str : Q → string) (str_num : string → option Q)
    (sql_year : string → option string) (df : list (list ImportExcel.cell))
    (uuids : nat → string) (now : string) (db : ImportExcel.database)
    (table' : list trip) :
  ImportExcel.main num_str str_num sql_year df uuids now db
  = ImportExcel.Committed table' →
  ∃ kept new,
    table' = kept ++ new ∧ new ≠ []
    ∧ (length new + count_skipped num_str (drop 3 df) = length df - 3)%nat
    ∧ ∀ k t, new !! k = Some t →
        sort_order t
        = Z.of_nat (count_skipped num_str (drop 3 df) + (length new - 1 - k)).
Proof.
  intros H. unfold ImportExcel.main in H.
  destruct (ImportExcel.db_vehicles db) as [|v vs]; [discriminate|].
  destruct (ImportExcel.first_pass num_str (drop 3 df)) as [[y|]|] eqn:Ey;
    try discriminate.
  case_bool_decide; [discriminate|].
  destruct (ImportExcel.insert_rows _ _ _ _ _ _ _ _ _) as [[n table'']|] eqn:E;
    [|discriminate].
  injection H as <-.
  apply insert_rows_sheet in E as (new & Hs & ->).
  pose proof (first_pass_head _ _ _ _ _ _ _ _ _ Hs) as Hhead. rewrite Ey in Hhead.
  destruct Hhead as (t0 & rest & Hnew0 & _).
  destruct (sheet_trips_spec _ _ _ _ _ _ _ _ _ Hs) as [Hlen Hkeys].
  rewrite length_drop in Hlen.
  eexists _, new. split; [reflexivity|]. split; [rewrite Hnew0; discriminate|].
  split; [exact Hlen|]. intros k t Hk.
  destruct (Hkeys k t Hk) as (_ & _ & _ & ->).
  apply lookup_lt_Some in Hk. lia.
Qed.

(** X8. After a committed import the first inserted trip's date begins
    with the target year, the table is the kept trips followed by the
    inserted ones, and, when SQLite dates every inserted trip in the
    target year, the vehicle's trips of that year are exactly the
    inserted trips, in sheet order: the year is replaced. *)
Theorem import_replaces_year (num_str : Q → string) (str_num : string → option Q)
    (sql_year : string → option string) (df : list (list ImportExcel.cell))
    (uuids : nat → string) (now : string) (db : ImportExcel.database)
    (table' : list trip) :
  ImportExcel.main num_str str_num sql_year df uuids now db
  = ImportExcel.Committed table' →
  ∃ v vs y first rest,
    ImportExcel.db_vehicles db = v :: vs
    ∧ ImportExcel.first_pass num_str (drop 3 df) = Some (Some y)
    ∧ substring 0 4 (date first) = y
    ∧ table' = filter (λ t, negb (ImportExcel.deleted sql_year (v_id v) y t))
                 (ImportExcel.db_trips db) ++ first :: rest
    ∧ (Forall (λ t, sql_year (date t) = Some y) (first :: rest) →
         filter (λ t, ImportExcel.deleted sql_year (v_id v) y t) table'
         = first :: rest).
Proof.
  intros H. unfold ImportExcel.main in H.
  destruct (ImportExcel.db_vehicles db) as [|v vs]; [discriminate|].
  destruct (ImportExcel.first_pass num_str (drop 3 df)) as [[y|]|] eqn:Ey;
    try discriminate.
  case_bool_decide; [discriminate|].
  destruct (ImportExcel.insert_rows _ _ _ _ _ _ _ _ _) as [[n table'']|] eqn:E;
    [|discriminate].
  injection H as <-.
  apply insert_rows_sheet in E as (new & Hs & ->).
  pose proof (first_pass_head _ _ _ _ _ _ _ _ _ Hs) as Hhead. rewrite Ey in Hhead.
  destruct Hhead as (t0 & rest & -> & Hyear).
  destruct (sheet_trips_spec _ _ _ _ _ _ _ _ _ Hs) as [_ Hkeys].
  exists v, vs, y, t0, rest. repeat (split; [reflexivity || assumption|]).
  intros Hall. rewrite filter_app.
  match goal with |- ?a ++ ?b = _ => assert (a = []) as ->; [|assert (b = t0 :: rest) as ->;
    [|reflexivity]] end.
  - induction (ImportExcel.db_trips db) as [|x l IHl]; [reflexivity|].
    rewrite filter_cons. destruct (decide _) as [Hx|Hx].
    + rewrite filter_cons. rewrite decide_False; [exact IHl|].
      intros Hd. destruct (ImportExcel.deleted sql_year (v_id v) y x); auto.
    + exact IHl.
  - assert (Forall (λ t, ImportExcel.deleted sql_year (v_id v) y t) (t0 :: rest)) as Hd.
    { apply Forall_lookup. intros k t Hk.
      destruct (Hkeys k t Hk) as (_ & Hv & _).
      unfold ImportExcel.deleted.
      rewrite bool_decide_eq_true_2 by exact Hv.
      rewrite bool_decide_eq_true_2; [exact I|].
      exact (proj1 (Forall_lookup _ _) Hall k t Hk). }
    clear -Hd. induction Hd as [|x l Hx _ IHl]; [reflexivity|].
    rewrite filter_cons, decide_True by exact Hx. rewrite IHl. reflexivity.
Qed.

Section Reimport.

Import ImportExcel.

Variable num_str : Q → string.
Variable str_num : string → option Q.
Variable sql_year : string → option string.

Lemma filter_ids_NoDup (P : trip → Prop) `{∀ t, Decision (P t)} (l : list trip) :
  NoDup (id <$> l) → NoDup (id <$> filter P l).
Proof.
  intros Hnd. induction l as [|x l IHl]; [constructor|].
  rewrite fmap_cons in Hnd. apply NoDup_cons in Hnd as [Hx Hnd].
  rewrite filter_cons. destruct (decide _); [|auto].
  rewrite fmap_cons. apply NoDup_cons. split; [|auto].
  intros Hin. apply Hx. apply list_elem_of_fmap in Hin as (u & -> & Hu).
  apply list_elem_of_filter in Hu as [_ Hu]. apply list_elem_of_fmap. eauto.
Qed.

Lemma filter_ids_subseteq (P : trip → Prop) `{∀ t, Decision (P t)} (l : list trip)
    (x : string) :
  x ∈ id <$> filter P l → x ∈ id <$> l.
Proof.
  intros Hin. apply list_elem_of_fmap in Hin as (u & -> & Hu).
  apply list_elem_of_filter in Hu as [_ Hu]. apply list_elem_of_fmap. eauto.
Qed.

(** The kept rows of a second run over the result of a first run are
    the kept rows of the first, when the first run's trips fall in the
    target year. *)
Lemma kept_after_import (vid y : string) (old new : list trip) :
  Forall (λ t, vehicle_id t = vid ∧ sql_year (date t) = Some y) new →
  let kept := filter (λ t, negb (deleted sql_year vid y t)) old in
  filter (λ t, negb (deleted sql_year vid y t)) (kept ++ new) = kept.
Proof.
  intros Hnew kept. rewrite filter_app.
  assert (filter (λ t, negb (deleted sql_year vid y t)) new = []) as ->.
  { induction Hnew as [|x l [Hv Hy] _ IHl]; [reflexivity|].
    rewrite filter_cons, decide_False; [exact IHl|].
    unfold deleted. rewrite !bool_decide_eq_true_2 by assumption. simpl. auto. }
  rewrite app_nil_r. unfold kept. clear. induction old as [|x l IHl]; [reflexivity|].
  rewrite filter_cons. destruct (decide _) as [Hx|Hx]; [|exact IHl].
  rewrite filter_cons, decide_True by exact Hx. rewrite IHl. reflexivity.
Qed.

End Reimport.

(** X9. The import commits whenever there is a vehicle, the first pass
    finds a year, every row from index 3 has at least 14 cells, the
    stored ids are distinct, and the generated identifiers are pairwise
    distinct and not in the table. *)
Theorem import_succeeds (num_str : Q → string) (str_num : string → option Q)
    (sql_year : string → option string) (df : list (list ImportExcel.cell))
    (uuids : nat → string) (now : string) (db : ImportExcel.database)
    (v : vehicle) (vs : list vehicle) (y : string) :
  ImportExcel.db_vehicles db = v :: vs →
  ImportExcel.first_pass num_str (drop 3 df) = Some (Some y) → y ≠ "" →
  Forall (λ row, (14 ≤ length row)%nat) (drop 3 df) →
  NoDup (id <$> ImportExcel.db_trips db) →
  (∀ j k, (j < k < length df - 3)%nat → uuids j ≠ uuids k) →
  (∀ k, (k < length df - 3)%nat → uuids k ∉ id <$> ImportExcel.db_trips db) →
  ∃ new,
    sheet_trips num_str str_num (v_id v) now uuids (length df) (drop 3 df) 0 = Some new
    ∧ ImportExcel.main num_str str_num sql_year df uuids now db
      = ImportExcel.Committed
          (filter (λ t, negb (ImportExcel.deleted sql_year (v_id v) y t))
             (ImportExcel.db_trips db) ++ new).
Proof.
  intros Hv Hy Hne Hrows Hnd Hinj Hfresh.
  destruct (sheet_trips_total num_str str_num (v_id v) now uuids (length df)
              (drop 3 df) 0 Hrows) as [new Hs].
  exists new. split; [exact Hs|].
  apply (main_committed_iff num_str str_num sql_year df uuids now db v vs y _ Hv Hy Hne Hnd).
  exists new. split; [exact Hs|]. split; [|reflexivity].
  apply (sheet_trips_fresh num_str str_num _ _ _ _ _ _ _ _ Hs).
  - apply filter_ids_NoDup, Hnd.
  - rewrite length_drop. simpl. exact Hinj.
  - rewrite length_drop. simpl. intros k Hk Hin.
    apply (Hfresh k Hk). exact (filter_ids_subseteq _ _ _ Hin).
Qed.

(** X10. Importing the same sheet a second time replaces the trips of
    the first run: when the first run commits and SQLite dates its
    trips in the target year, a second run with fresh identifiers
    commits too, keeps the same other trips, and inserts trips that
    differ from those of the first run at most in [id], [created_at]
    and [updated_at]. *)
Theorem reimport_replaces (num_str : Q → string) (str_num : string → option Q)
    (sql_year : string → option string) (df : list (list ImportExcel.cell))
    (uuids uuids' : nat → string) (now now' : string) (db : ImportExcel.database)
    (v : vehicle) (vs : list vehicle) (y : string) (kept new : list trip) :
  kept = filter (λ t, negb (ImportExcel.deleted sql_year (v_id v) y t))
           (ImportExcel.db_trips db) →
  ImportExcel.db_vehicles db = v :: vs →
  ImportExcel.first_pass num_str (drop 3 df) = Some (Some y) →
  NoDup (id <$> ImportExcel.db_trips db) →
  ImportExcel.main num_str str_num sql_year df uuids now db
  = ImportExcel.Committed (kept ++ new) →
  Forall (λ t, sql_year (date t) = Some y) new →
  (∀ j k, (j < k < length df - 3)%nat → uuids' j ≠ uuids' k) →
  (∀ k, (k < length df - 3)%nat → uuids' k ∉ id <$> ImportExcel.db_trips db) →
  ∃ new',
    ImportExcel.main num_str str_num sql_year df uuids' now'
      {| ImportExcel.db_vehicles := ImportExcel.db_vehicles db;
         ImportExcel.db_trips := kept ++ new |}
    = ImportExcel.Committed (kept ++ new')
    ∧ Forall2 same_trip_data new new'.
Proof.
  intros Hkdef Hv Hy Hnd Hrun Hyear Hinj Hfresh. subst kept.
  set (kept := filter (λ t, negb (ImportExcel.deleted sql_year (v_id v) y t))
                 (ImportExcel.db_trips db)) in *.
  assert (y ≠ "") as Hne.
  { intros ->. unfold ImportExcel.main in Hrun. rewrite Hv, Hy in Hrun.
    rewrite bool_decide_eq_true_2 in Hrun by reflexivity. discriminate. }
  apply (main_committed_iff num_str str_num sql_year df uuids now db v vs y _
           Hv Hy Hne Hnd) in Hrun as (new0 & Hs & Hnd1 & Heq).
  apply app_inv_head in Heq. subst new0.
  destruct (sheet_trips_same_data num_str str_num (v_id v) now now' uuids uuids'
              (length df) (drop 3 df) 0 new Hs) as (new' & Hs' & Hsame).
  exists new'. split; [|exact Hsame].
  destruct (sheet_trips_spec num_str str_num _ _ _ _ _ _ _ Hs) as [_ Hkeys].
  assert (filter (λ t, negb (ImportExcel.deleted sql_year (v_id v) y t)) (kept ++ new)
          = kept) as Hkept.
  { apply kept_after_import. apply Forall_lookup. intros k t Hk.
    destruct (Hkeys k t Hk) as (_ & Hvid & _). split; [exact Hvid|].
    exact (proj1 (Forall_lookup _ _) Hyear k t Hk). }
  apply (main_committed_iff num_str str_num sql_year df uuids' now'
           {| ImportExcel.db_vehicles := ImportExcel.db_vehicles db;
              ImportExcel.db_trips := kept ++ new |} v vs y _ Hv Hy Hne Hnd1).
  exists new'. simpl. rewrite Hkept. split; [exact Hs'|]. split; [|reflexivity].
  apply (sheet_trips_fresh num_str str_num _ _ _ _ _ _ _ _ Hs').
  - apply filter_ids_NoDup, Hnd.
  - rewrite length_drop. simpl. exact Hinj.
  - rewrite length_drop. simpl. intros k Hk Hin.
    apply (Hfresh k Hk). exact (filter_ids_subseteq _ _ _ Hin).
Qed.

Section Dates.

Import ImportExcel.

Lemma lower_ascii_dot (c : ascii) : lower_ascii c = "."%char → c = "."%char.
Proof.
  destruct c as [[] [] [] [] [] [] [] []]; vm_compute; intros H;
    first [reflexivity | discriminate H].
Qed.

Lemma no_dot_lower (s : string) : no_dot s = true → no_dot (lower s) = true.
Proof.
  induction s as [|c s IH]; [reflexivity|]. simpl.
  rewrite !andb_true_iff, !negb_true_iff, !bool_decide_eq_false.
  intros [Hc Hs]. split; [|exact (IH Hs)]. intros H. apply Hc, lower_ascii_dot, H.
Qed.






End Dates.


(** * Further properties of the showcase *)

(** X12. The trips loop of [create_db], on any data: it inserts one row
    per entry, in order, with consecutive identifiers and keys; the
    first row's odometer is the start plus its distance, every later
    row's odometer is the previous row's plus its own distance, and so
    the odometer never falls when no distance is negative. *)
Theorem showcase_odometer_follows_distance (vid now : string) (uuids : nat → string)
    (data : list (string * string * string * Q * option Q * option Q * string))
    (k : nat) (odo : Q) (sort : Z) :
  length (Showcase.insert_trips vid now uuids data k odo sort) = length data
  ∧ (∀ j t, Showcase.insert_trips vid now uuids data k odo sort !! j = Some t →
       id t = uuids (k + j)%nat ∧ sort_order t = (sort + Z.of_nat j)%Z
       ∧ full_tank t = 1%Z)
  ∧ (∀ t, Showcase.insert_trips vid now uuids data k odo sort !! 0%nat = Some t →
       odometer t = odo + distance_km t)
  ∧ (∀ j a b,
       Showcase.insert_trips vid now uuids data k odo sort !! j = Some a →
       Showcase.insert_trips vid now uuids data k odo sort !! S j = Some b →
       odometer b = odometer a + distance_km b
       ∧ (0 <= distance_km b → odometer a <= odometer b)).
Proof.
  revert k odo sort. induction data as [|[[[[[[dt orig] dest] km] fuel] cost] purp] data IH];
    intros k odo sort.
  - simpl. split; [reflexivity|]. repeat split; intros; discriminate.
  - destruct (IH (S k) (odo + km) (sort + 1)%Z) as (Hlen & Hids & Hfirst & Hnext).
    simpl. split; [rewrite Hlen; reflexivity|]. split; [|split].
    + intros [|j] t Hj; simpl in Hj.
      * injection Hj as <-. simpl. rewrite Nat.add_0_r, Z.add_0_r. auto.
      * destruct (Hids j t Hj) as (-> & -> & ->).
        replace (k + S j)%nat with (S k + j)%nat by lia.
        split; [reflexivity|]. split; [lia|reflexivity].
    + intros t [= <-]. reflexivity.
    + intros [|j] a b Ha Hb; simpl in Ha, Hb.
      * injection Ha as <-. simpl. rewrite (Hfirst b Hb).
        split; [reflexivity|]. intros H. lra.
      * exact (Hnext j a b Ha Hb).
Qed.

(** * The import followed by the comparison *)

Section QueryOrder.

Import CompareReaders.

Lemma key_le_spec (a b : trip) :
  key_le a b
  ↔ String_as_OT.lt (date a) (date b)
    ∨ (date a = date b ∧ odometer a <= odometer b).
Proof.
  unfold key_le, key_leb.
  destruct (String_as_OT.compare_spec (date a) (date b)) as [Heq|Hlt|Hgt].
  - rewrite Qle_bool_iff. split; [auto|]. intros [H|[_ H]]; [|exact H].
    exfalso. rewrite Heq in H. exact (irreflexivity String_as_OT.lt _ H).
  - split; auto.
  - split; [discriminate|]. intros [H|[Heq _]]; exfalso.
    + exact (irreflexivity String_as_OT.lt _ (transitivity H Hgt)).
    + rewrite Heq in Hgt. exact (irreflexivity String_as_OT.lt _ Hgt).
Qed.

#[local] Instance key_le_total : Total key_le.
Proof.
  intros a b. rewrite !key_le_spec.
  destruct (String_as_OT.compare_spec (date a) (date b)) as [Heq|Hlt|Hgt]; [|auto|auto].
  destruct (Qlt_le_dec (odometer b) (odometer a)) as [H|H].
  - right. right. split; [auto|]. apply Qlt_le_weak, H.
  - left. right. auto.
Qed.

#[local] Instance key_le_trans : Transitive key_le.
Proof.
  intros a b c. rewrite !key_le_spec.
  intros [H1|[E1 H1]] [H2|[E2 H2]].
  - left. exact (transitivity H1 H2).
  - left. rewrite <- E2. exact H1.
  - left. rewrite E1. exact H2.
  - right. split; [congruence|]. exact (Qle_trans _ _ _ H1 H2).
Qed.

Lemma strictly_sorted_antisym (l : list trip) (x y : trip) :
  StronglySorted key_lt l → x ∈ l → y ∈ l → key_le x y → key_le y x → x = y.
Proof.
  intros Hl. induction Hl as [|a l _ IH Ha]; intros Hx Hy Hxy Hyx; [inversion Hx|].
  rewrite Forall_forall in Ha.
  apply elem_of_cons in Hx as [->|Hx]; apply elem_of_cons in Hy as [->|Hy].
  - reflexivity.
  - exfalso. exact (proj2 (Ha y Hy) Hyx).
  - exfalso. exact (proj2 (Ha x Hx) Hxy).
  - exact (IH Hx Hy Hxy Hyx).
Qed.

(** The query leaves a strictly ordered list as it is. *)
Lemma merge_sort_strictly_sorted (l : list trip) :
  StronglySorted key_lt l → merge_sort key_le l = l.
Proof.
  intros Hl. apply (Sorted_unique_strong key_le).
  - intros x y Hx Hy. apply (strictly_sorted_antisym l); [exact Hl| |exact Hy].
    rewrite <- (merge_sort_Permutation key_le l). exact Hx.
  - apply Sorted_merge_sort. exact _.
  - apply StronglySorted_Sorted. clear -Hl.
    induction Hl as [|a l _ IH Ha]; constructor; [exact IH|].
    eapply Forall_impl; [exact Ha|]. intros y [H _]. exact H.
  - apply merge_sort_Permutation.
Qed.

End QueryOrder.

Section ReadersAgree.

Import ImportExcel CompareReaders.

Variable num_str : Q → string.
Variable str_num : string → option Q.
Variable sql_year : string → option string.

Lemma Qabs_diff_small (x y : Q) : x == y → Qabs (x - y) <= 0.01.
Proof.
  intros H. assert (x - y == 0) as -> by (rewrite H; ring). discriminate.
Qed.

Lemma float_or_zero_agree (c : cell) (x : Q) :
  float_or str_num (λ q, q) 0 c = Some x →
  Qabs (x - parse_float_or_zero str_num c) <= 0.01.
Proof.
  assert (∀ q, Qabs (q - (if Py.truthy q then q else 0)) <= 0.01) as Hq.
  { intros q. unfold Py.truthy. destruct (Qeq_bool q 0) eqn:E; cbn [negb].
    - apply Qabs_diff_small. apply Qeq_bool_iff, E.
    - apply Qabs_diff_small. reflexivity. }
  unfold float_or, parse_float_or_zero.
  destruct c as [|s|q|yy mm dd]; cbn [isna negb to_float parse_float].
  - intros [= <-]. apply Qabs_diff_small. reflexivity.
  - destruct (str_num s) as [q|]; [|discriminate]. intros [= <-]. apply Hq.
  - intros [= <-]. apply Hq.
  - discriminate.
Qed.

Lemma float_or_none_agree (c : cell) (o : option Q) :
  float_or str_num Some None c = Some o →
  fixed_equal (opt_float o) (opt_float (parse_float str_num c)).
Proof.
  unfold float_or.
  destruct c as [|s|q|yy mm dd]; cbn [isna negb to_float parse_float].
  - intros [= <-]. exact I.
  - destruct (str_num s) as [q|]; [|discriminate]. intros [= <-].
    apply Qabs_diff_small. reflexivity.
  - intros [= <-]. apply Qabs_diff_small. reflexivity.
  - discriminate.
Qed.

(** The dictionary and the trip made from one row agree on the fixed
    fields. *)
Lemma row_agrees (vid now trip_id : string) (len_df imported : nat)
    (date_val : cell) (row : list cell) (e : excel_trip) (t : trip) :
  excel_dict num_str str_num date_val row = Some e →
  make_trip num_str str_num vid now trip_id len_df imported date_val row = Some t →
  fixed_agree e t.
Proof.
  unfold excel_dict, make_trip. intros He Ht.
  repeat match type of Ht with
         | (?o ≫= _) = Some _ => destruct o; simpl in He, Ht; [|discriminate]
         end.
  repeat match type of He with
         | (?o ≫= _) = Some _ =>
           let E := fresh "E" in destruct o eqn:E; simpl in He; [|discriminate]
         end.
  injection He as <-. injection Ht as <-.
  intros field Hin. unfold fixed_fields in Hin.
  repeat (apply elem_of_cons in Hin as [->|Hin]); [..|inversion Hin];
    first [ reflexivity
          | apply float_or_zero_agree; assumption
          | apply float_or_none_agree; assumption ].
Qed.

(** The reference rows and the imported trips of a sheet agree row by
    row. *)
Lemma readers_agree (vid now : string) (uuids : nat → string) (len_df : nat)
    (rows : list (list cell)) (imported : nat) (es : list excel_trip)
    (new : list trip) :
  excel_rows num_str str_num rows = Some es →
  sheet_trips num_str str_num vid now uuids len_df rows imported = Some new →
  Forall2 fixed_agree es new.
Proof.
  revert imported es new. induction rows as [|row rows IH]; intros imported es new He Hn.
  - simpl in He, Hn. injection He as <-. injection Hn as <-. constructor.
  - simpl in He, Hn. destruct (row !! 0%nat) as [date_val|]; simpl in He, Hn;
      [|discriminate].
    destruct (skipped num_str date_val); [exact (IH _ _ _ He Hn)|].
    destruct (excel_dict num_str str_num date_val row) as [e|] eqn:Ee; simpl in He;
      [|discriminate].
    destruct (make_trip _ _ _ _ _ _ _ _ _) as [t|] eqn:Et; simpl in Hn; [|discriminate].
    destruct (excel_rows num_str str_num rows) as [es'|]; simpl in He; [|discriminate].
    destruct (sheet_trips _ _ _ _ _ _ _ _) as [new'|] eqn:En; simpl in Hn; [|discriminate].
    injection He as <-. injection Hn as <-. constructor.
    + exact (row_agrees _ _ _ _ _ _ _ _ _ Ee Et).
    + exact (IH _ _ _ eq_refl En).
Qed.

(** Rows that agree give no fixed mismatch. *)
Lemma agreeing_rows_no_mismatch (calc : calc_data) (es : list excel_trip)
    (ds : list trip) (res : result) :
  Forall2 fixed_agree es ds → fixed_mismatches res = [] →
  fixed_mismatches (compare_rows calc 0 es ds res) = [].
Proof.
  intros Hagree Hres.
  destruct (compare_rows_spec calc es ds 0 res) as (Hf & _).
  destruct (fixed_mismatches (compare_rows calc 0 es ds res)) as [|m l]; [reflexivity|].
  exfalso. destruct (proj1 (Hf m)) as [H|(k & e & d & He & Hd & f & Hin & _ & Hne)].
  - left.
  - rewrite Hres in H. inversion H.
  - apply Hne. exact (Forall2_lookup_lr _ _ _ _ _ _ Hagree He Hd f Hin).
Qed.

(** After a committed import the query for the target year returns the
    inserted trips, when SQLite dates them in that year and they are
    strictly ordered by date and odometer. *)
Lemma select_year_after_import (vid y : string) (old new : list trip) :
  Forall (λ t, vehicle_id t = vid ∧ sql_year (date t) = Some y) new →
  StronglySorted key_lt new →
  select_year sql_year vid y
    (filter (λ t, negb (deleted sql_year vid y t)) old ++ new) = new.
Proof.
  intros Hnew Hsorted. unfold select_year. rewrite filter_app.
  assert (filter (λ t, deleted sql_year vid y t)
            (filter (λ t, negb (deleted sql_year vid y t)) old) = []) as ->.
  { induction old as [|x l IHl]; [reflexivity|].
    rewrite filter_cons. destruct (decide _) as [Hx|Hx]; [|exact IHl].
    rewrite filter_cons, decide_False; [exact IHl|].
    intros Hd. destruct (deleted sql_year vid y x); auto. }
  assert (filter (λ t, deleted sql_year vid y t) new = new) as ->.
  { clear Hsorted. induction Hnew as [|x l [Hv Hy] _ IHl]; [reflexivity|].
    rewrite filter_cons, decide_True, IHl; [reflexivity|].
    unfold deleted. rewrite !bool_decide_eq_true_2 by assumption. exact I. }
  simpl. apply merge_sort_strictly_sorted, Hsorted.
Qed.

End ReadersAgree.

(** X13. One round of the loop of [compare_import.main]: when the
    import of a sheet commits, the reference rows can be read, SQLite
    dates every inserted trip in the year given to the comparison (which
    is the target year of the import), and the inserted trips are
    strictly ordered by date and odometer, then the comparison runs on
    exactly the inserted trips and reports no count mismatch and no
    fixed-field mismatch. *)
Theorem import_then_compare_matches (num_str : Q → string)
    (str_num : string → option Q) (sql_year : string → option string)
    (df : list (list ImportExcel.cell)) (yr : string) (uuids : nat → string)
    (now : string) (db : ImportExcel.database) (v : vehicle) (vs : list vehicle)
    (table' : list trip) (new : list trip) (es : list excel_trip) :
  ImportExcel.db_vehicles db = v :: vs →
  ImportExcel.first_pass num_str (drop 3 df) = Some (Some yr) →
  ImportExcel.main num_str str_num sql_year df uuids now db
  = ImportExcel.Committed table' →
  sheet_trips num_str str_num (v_id v) now uuids (length df) (drop 3 df) 0 = Some new →
  CompareReaders.get_excel_data num_str str_num df = Some es →
  Forall (λ t, sql_year (date t) = Some yr) new →
  StronglySorted key_lt new →
  ∃ res,
    CompareReaders.check_sheet num_str str_num sql_year df yr uuids now db
    = CompareReaders.Compared res
    ∧ CompareReaders.get_db_data sql_year yr
        {| ImportExcel.db_vehicles := ImportExcel.db_vehicles db;
           ImportExcel.db_trips := table' |} = Some new
    ∧ excel_count res = length new ∧ db_count res = length new
    ∧ count_mismatch res = None
    ∧ fixed_mismatches res = [].
Proof.
  intros Hv Hy Hrun Hs Hes Hyear Hsorted.
  assert (table' = filter (λ t, negb (ImportExcel.deleted sql_year (v_id v) yr t))
                     (ImportExcel.db_trips db) ++ new) as ->.
  { unfold ImportExcel.main in Hrun. rewrite Hv, Hy in Hrun.
    case_bool_decide; [discriminate|].
    destruct (ImportExcel.insert_rows _ _ _ _ _ _ _ _ _) as [[n t'']|] eqn:E;
      [|discriminate].
    injection Hrun as <-. apply insert_rows_sheet in E as (new0 & Hs0 & ->).
    congruence. }
  assert (CompareReaders.select_year sql_year (v_id v) yr
            (filter (λ t, negb (ImportExcel.deleted sql_year (v_id v) yr t))
               (ImportExcel.db_trips db) ++ new) = new) as Hsel.
  { apply select_year_after_import; [|exact Hsorted].
    destruct (sheet_trips_spec num_str str_num _ _ _ _ _ _ _ Hs) as [_ Hkeys].
    apply Forall_lookup. intros k t Hk. destruct (Hkeys k t Hk) as (_ & Hvid & _).
    split; [exact Hvid|]. exact (proj1 (Forall_lookup _ _) Hyear k t Hk). }
  pose proof (readers_agree num_str str_num _ _ _ _ _ _ _ _ Hes Hs) as Hagree.
  pose proof (Forall2_length _ _ _ Hagree) as Hlen.
  destruct (compare_year_equal_lengths yr es v new Hlen) as (calc & _ & Hcmp).
  eexists. unfold CompareReaders.check_sheet, CompareReaders.compare_year_db,
    CompareReaders.get_db_data.
  rewrite Hrun, Hes. simpl. rewrite Hv. simpl. rewrite Hsel, Hcmp.
  split; [reflexivity|]. split; [reflexivity|].
  match goal with |- context [compare_rows calc 0 es new ?r] =>
    destruct (compare_rows_spec calc es new 0 r) as (_ & _ & _ & Hec & Hdc & Hcm);
    pose proof (agreeing_rows_no_mismatch calc es new r Hagree eq_refl) as Hfix
  end.
  rewrite Hec, Hdc, Hcm, Hfix. simpl. auto.
Qed.

(** * Instances of the further properties *)

Lemma rates_by_data_witness :
  NoDup (id <$> [sample_trip "a" 28 None 1; sample_trip "b" 28 (Some 19.6) 1;
                 sample_trip "c" 100 None 1])
  ∧ ∃ rs r,
      calc_rates 5.1 [sample_trip "a" 28 None 1; sample_trip "b" 28 (Some 19.6) 1;
                      sample_trip "c" 100 None 1] = Some rs
      ∧ r == 35 ∧ rs !! "a" = Some r ∧ rs !! "b" = Some r ∧ rs !! "c" = Some 5.1.
Proof.
  set (a := sample_trip "a" 28 None 1). set (b := sample_trip "b" 28 (Some 19.6) 1).
  set (c := sample_trip "c" 100 None 1).
  assert (NoDup (id <$> [a; b; c])) as Hnd.
  { apply (bool_decide_unpack _). vm_compute. exact I. }
  assert (closed_period [] [a; b]) as Hcp.
  { apply two_trip_period; [apply boundary_nil|reflexivity| |reflexivity].
    split; [exists 19.6; split; reflexivity|discriminate]. }
  assert (open_period [a; b] [c]) as Hop.
  { split; [apply Hcp|]. intros p Hp [k Hk] Hb.
    destruct p as [|x p]; [congruence|]. injection Hk as <- Hk.
    destruct p; [|discriminate]. vm_compute in Hb. discriminate. }
  split; [exact Hnd|].
  destruct (rates_by_data 5.1 [a; b; c] [[a; b]] [c] Hnd eq_refl)
    as (rs & E & Hper & Htail).
  - constructor; [|constructor]. exact (closed_period_first_end _ _ Hcp).
  - exact (open_period_no_end _ _ Hop).
  - destruct (Hper [a; b]) as (r & Hr & _ & Hrates); [left|].
    exists rs, r. split; [exact E|]. split; [rewrite Hr; reflexivity|].
    split; [apply (Hrates a); left|]. split; [apply (Hrates b); right; left|].
    apply (Htail c). left.
Defined.

Lemma period_consumption_equals_fuel_witness :
  NoDup (id <$> [sample_trip "a" 28 None 1; sample_trip "b" 28 (Some 19.6) 1])
  ∧ ∃ c,
      get_calculated_values sample_vehicle
        [sample_trip "a" 28 None 1; sample_trip "b" 28 (Some 19.6) 1] = Some c
      ∧ total_consumed (c_spotreba c)
          [sample_trip "a" 28 None 1; sample_trip "b" 28 (Some 19.6) 1] == 19.6.
Proof.
  set (a := sample_trip "a" 28 None 1). set (b := sample_trip "b" 28 (Some 19.6) 1).
  assert (NoDup (id <$> [a; b])) as Hnd.
  { apply (bool_decide_unpack _). vm_compute. exact I. }
  assert (closed_period [] [a; b]) as Hcp.
  { apply two_trip_period; [apply boundary_nil|reflexivity| |reflexivity].
    split; [exists 19.6; split; reflexivity|discriminate]. }
  split; [exact Hnd|].
  destruct (period_consumption_equals_fuel sample_vehicle [a; b] [[a; b]] [] Hnd eq_refl)
    as (c & E & Hsum).
  - constructor; [|constructor]. exact (closed_period_first_end _ _ Hcp).
  - intros p [k Hk]. destruct p; [|discriminate]. exact ends_period_nil.
  - exists c. split; [exact E|]. rewrite (Hsum [a; b]); [reflexivity|left].
Defined.

Lemma level_falls_without_refuel_witness :
  (0 <= tank_size_liters sample_vehicle ∧ 0 <= tp_consumption sample_vehicle)
  ∧ ∃ c before remaining,
      get_calculated_values sample_vehicle [sample_trip "a" 100 None 1] = Some c
      ∧ level_before 50 (c_zostatok c) [] = Some before
      ∧ c_zostatok c !! "a" = Some remaining
      ∧ remaining <= before.
Proof.
  assert (0 <= tank_size_liters sample_vehicle) as Hcap by (vm_compute; discriminate).
  assert (0 <= tp_consumption sample_vehicle) as Htp by (vm_compute; discriminate).
  assert (∀ t, t ∈ [sample_trip "a" 100 None 1] → 0 <= distance_km t) as Hd.
  { intros t Ht. apply list_elem_of_singleton in Ht. subst t. vm_compute. discriminate. }
  assert (NoDup (id <$> [sample_trip "a" 100 None 1])) as Hnd.
  { apply (bool_decide_unpack _). vm_compute. exact I. }
  split; [split; assumption|].
  destruct (level_falls_without_refuel sample_vehicle _ Hcap Htp Hd Hnd)
    as (c & E & _ & Hfall).
  destruct (Hfall [] (sample_trip "a" 100 None 1) [] eq_refl (or_introl eq_refl))
    as (before & remaining & Hb & Hz & Hle).
  exists c, before, remaining. auto.
Defined.


Lemma import_keys_witness :
  ∃ table',
    ImportExcel.main sample_num_str sample_str_num sample_sql_year sample_sheet
      sample_uuids "now" sample_db = ImportExcel.Committed table'
    ∧ ∃ kept new,
        table' = kept ++ new ∧ new ≠ []
        ∧ (length new + count_skipped sample_num_str (drop 3 sample_sheet) = 4)%nat.
Proof.
  eexists. split; [vm_compute; reflexivity|].
  destruct (import_keys sample_num_str sample_str_num sample_sql_year sample_sheet
              sample_uuids "now" sample_db _ ltac:(vm_compute; reflexivity))
    as (kept & new & E & Hne & Hlen & _).
  exists kept, new. split; [exact E|]. split; [exact Hne|exact Hlen].
Defined.

Lemma import_replaces_year_witness :
  ∃ table',
    ImportExcel.main sample_num_str sample_str_num sample_sql_year sample_sheet
      sample_uuids "now" sample_db = ImportExcel.Committed table'
    ∧ ∃ y first,
        ImportExcel.first_pass sample_num_str (drop 3 sample_sheet) = Some (Some y)
        ∧ substring 0 4 (date first) = y.
Proof.
  eexists. split; [vm_compute; reflexivity|].
  destruct (import_replaces_year sample_num_str sample_str_num sample_sql_year
              sample_sheet sample_uuids "now" sample_db _
              ltac:(vm_compute; reflexivity))
    as (v & vs & y & first & rest & _ & Hy & Hfirst & _).
  exists y, first. split; [exact Hy|exact Hfirst].
Defined.

Lemma sample_uuids_distinct (prefix : string) (j k : nat) :
  (j < k < 4)%nat → prefix +:+ pretty j ≠ prefix +:+ pretty k.
Proof.
  intros [Hjk Hk] H. apply (inj (String.append prefix)) in H.
  destruct k as [|[|[|[|k]]]]; [lia| | | |lia];
    destruct j as [|[|[|j]]]; try lia; vm_compute in H; discriminate.
Qed.

Lemma sample_uuids_fresh (k : nat) :
  (k < 4)%nat →
  (sample_uuids k ∉ id <$> ImportExcel.db_trips sample_db)
  ∧ (second_uuids k ∉ id <$> ImportExcel.db_trips sample_db).
Proof.
  intros Hk. destruct k as [|[|[|[|k]]]]; [| | | |lia];
    split; apply (bool_decide_unpack _); vm_compute; exact I.
Qed.

Lemma import_succeeds_witness :
  Forall (λ row, (14 ≤ length row)%nat) (drop 3 sample_sheet)
  ∧ ∃ new,
      ImportExcel.main sample_num_str sample_str_num sample_sql_year sample_sheet
        sample_uuids "now" sample_db
      = ImportExcel.Committed
          (filter (λ t, negb (ImportExcel.deleted sample_sql_year "v1" "2024" t))
             (ImportExcel.db_trips sample_db) ++ new).
Proof.
  assert (Forall (λ row, (14 ≤ length row)%nat) (drop 3 sample_sheet)) as Hrows.
  { repeat constructor; simpl; lia. }
  split; [exact Hrows|].
  destruct (import_succeeds sample_num_str sample_str_num sample_sql_year sample_sheet
              sample_uuids "now" sample_db sample_vehicle [] "2024")
    as (new & _ & E).
  - reflexivity.
  - vm_compute. reflexivity.
  - discriminate.
  - exact Hrows.
  - apply (bool_decide_unpack _). vm_compute. exact I.
  - intros j k Hjk. apply (sample_uuids_distinct "uuid-"). exact Hjk.
  - intros k Hk. apply sample_uuids_fresh, Hk.
  - exists new. exact E.
Defined.

Lemma reimport_replaces_witness :
  ImportExcel.main sample_num_str sample_str_num sample_sql_year sample_sheet
    sample_uuids "now" sample_db
  = ImportExcel.Committed (take 1 sample_first_run ++ drop 1 sample_first_run)
  ∧ ∃ new',
      ImportExcel.main sample_num_str sample_str_num sample_sql_year sample_sheet
        second_uuids "later"
        {| ImportExcel.db_vehicles := ImportExcel.db_vehicles sample_db;
           ImportExcel.db_trips := take 1 sample_first_run ++ drop 1 sample_first_run |}
      = ImportExcel.Committed (take 1 sample_first_run ++ new')
      ∧ Forall2 same_trip_data (drop 1 sample_first_run) new'.
Proof.
  assert (ImportExcel.main sample_num_str sample_str_num sample_sql_year sample_sheet
            sample_uuids "now" sample_db
          = ImportExcel.Committed (take 1 sample_first_run ++ drop 1 sample_first_run))
    as Hrun by (vm_compute; reflexivity).
  split; [exact Hrun|].
  apply (reimport_replaces sample_num_str sample_str_num sample_sql_year sample_sheet
           sample_uuids second_uuids "now" "later" sample_db sample_vehicle [] "2024").
  - vm_compute. reflexivity.
  - reflexivity.
  - vm_compute. reflexivity.
  - apply (bool_decide_unpack _). vm_compute. exact I.
  - exact Hrun.
  - vm_compute. repeat constructor.
  - intros j k Hjk. apply (sample_uuids_distinct "again-"). exact Hjk.
  - intros k Hk. apply sample_uuids_fresh, Hk.
Defined.


Lemma import_then_compare_matches_witness :
  ∃ res,
    CompareReaders.check_sheet sample_num_str sample_str_num sample_sql_year
      sample_sheet "2024" sample_uuids "now" sample_db
    = CompareReaders.Compared res
    ∧ count_mismatch res = None ∧ fixed_mismatches res = [].
Proof.
  destruct (import_then_compare_matches sample_num_str sample_str_num sample_sql_year
              sample_sheet "2024" sample_uuids "now" sample_db sample_vehicle []
              _ _ _ eq_refl
              ltac:(vm_compute; reflexivity) ltac:(vm_compute; reflexivity)
              ltac:(vm_compute; reflexivity) ltac:(vm_compute; reflexivity))
    as (res & E & _ & _ & _ & Hcm & Hfix).
  - repeat constructor.
  - repeat constructor; vm_compute; intros H; discriminate H.
  - exists res. auto.
Defined.
